(** * thesistools: the SI-prefix formatter and the curve helper

    A shallow embedding of [formatSI], of [createAxes] and [setLabels],
    and of the [Curve] methods [get_curve], [plot_line],
    [draw_connecting_hline] and [draw_connecting_vline] of thesistools.py.

    Numbers.  A Python float is a [pyfloat]: a finite value, an infinity or
    nan.  Finite values are kept as exact rationals: the 53-bit rounding that
    binary64 applies after each operation is not modelled, and [np.log],
    the quotient of the two logarithms and [np.floor] are taken together
    with their mathematical meaning (the largest [e] with [1000^e <= |x|]).
    The decimal roundings of the two format steps are exact, half to
    even, on the value they are given, as in CPython; since that value is
    a decimal here and the nearest double there, the two differ on a
    decimal tie (1.245 shown with three digits is [1.24] here, and [1.25]
    for the double, which lies above the tie).
    The upper end of the binary64 range is modelled: reading a decimal
    string whose value does not round to a finite double gives [inf], as
    [float()] does.
    The two formats are defined for every precision and every width;
    Python's refuse a precision of [2^31] or more.

    Strings.  A Python [str] is a [string] holding its UTF-8 bytes.

    Errors.  A raised exception is the [Raise] case of [Py.result]. *)

From Stdlib Require Import ZArith QArith Qround Qabs Qpower Lia Lqa.
From Stdlib Require Import String Ascii List Bool.
Import ListNotations.

Local Open Scope string_scope.

(* ------------------------------------------------------------------ *)
(** ** Exceptions *)

Module Py.

Inductive exn : Set :=
| NameError
| OverflowError
| TypeError
| ValueError.

Inductive result (A : Type) : Type :=
| Ok (a : A)
| Raise (e : exn).

Arguments Ok {A} a.
Arguments Raise {A} e.

Definition bind {A B : Type} (c : result A) (k : A -> result B) : result B :=
  match c with
  | Ok a => k a
  | Raise e => Raise e
  end.

Definition map {A B : Type} (f : A -> B) (c : result A) : result B :=
  bind c (fun a => Ok (f a)).

Definition returns {A : Type} (c : result A) : Prop :=
  exists a, c = Ok a.

End Py.

Import Py.

Notation "x <- c ;; k" := (Py.bind c (fun x => k))
  (at level 61, c at next level, right associativity).

(* ------------------------------------------------------------------ *)
(** ** Floats *)

Inductive pyfloat : Set :=
| Fin (q : Q)
| Inf (negative : bool)
| NaN.

(** The smallest magnitude that [float()] reads as an infinity: the
    midpoint between the largest finite double and [2^1024], which
    round-half-even sends upward. *)
Definition overflow_threshold : Q := inject_Z (2 ^ 1024 - 2 ^ 970).

(** The largest finite double, [1.7976931348623157e308]. *)
Definition DBL_MAX : Q := inject_Z ((2 ^ 53 - 1) * 2 ^ 971).

Definition Qltb (a b : Q) : bool := negb (Qle_bool b a).

(** Rounding a real value into the range of binary64. *)
Definition to_double (q : Q) : pyfloat :=
  if Qle_bool overflow_threshold (Qabs q) then Inf (Qltb q 0) else Fin q.

(** [number == 0] *)
Definition float_eq0 (x : pyfloat) : bool :=
  match x with
  | Fin q => Qeq_bool q 0
  | _ => false
  end.

(** [abs(number)] *)
Definition float_abs (x : pyfloat) : pyfloat :=
  match x with
  | Fin q => Fin (Qabs q)
  | Inf _ => Inf false
  | NaN => NaN
  end.

(** [-number] *)
Definition float_neg (x : pyfloat) : pyfloat :=
  match x with
  | Fin q => Fin (- q)%Q
  | Inf b => Inf (negb b)
  | NaN => NaN
  end.

(** [a / b] on numpy scalars: a zero divisor gives an infinity or nan
    (with a warning), never an exception. *)
Definition float_div (a b : pyfloat) : pyfloat :=
  match a, b with
  | NaN, _ | _, NaN => NaN
  | Inf _, Inf _ => NaN
  | Inf sa, Fin qb => Inf (xorb sa (Qltb qb 0))
  | Fin _, Inf _ => Fin 0
  | Fin qa, Fin qb =>
      if Qeq_bool qb 0
      then (if Qeq_bool qa 0 then NaN else Inf (Qltb qa 0))
      else Fin (qa / qb)%Q
  end.

(** [b ** e] for a base [b > 1] and an exponent that is the result of
    [np.floor]. *)
Definition float_pow (b : Q) (e : pyfloat) : pyfloat :=
  match e with
  | Fin qe => Fin (Qpower b (Qfloor qe))
  | Inf false => Inf false
  | Inf true => Fin 0
  | NaN => NaN
  end.

(** [int(x)]: truncation toward zero; infinities and nan raise. *)
Definition Qtrunc (q : Q) : Z :=
  if Qltb q 0 then Qceiling q else Qfloor q.

Definition py_int (x : pyfloat) : result Z :=
  match x with
  | Fin q => Ok (Qtrunc q)
  | Inf _ => Raise OverflowError
  | NaN => Raise ValueError
  end.

(* ------------------------------------------------------------------ *)
(** ** Integer logarithms of positive rationals *)

(** Searching upward: [k] is such that [d = b^k * d0 <= n]. *)
Fixpoint ilog_up (fuel : nat) (b n d k : Z) : Z :=
  match fuel with
  | O => k
  | S fuel' =>
      if (b * d <=? n)%Z then ilog_up fuel' b n (b * d) (k + 1) else k
  end.

(** Searching downward: [k] is such that [n = b^(-k) * n0 < d]. *)
Fixpoint ilog_down (fuel : nat) (b n d k : Z) : Z :=
  match fuel with
  | O => k - 1
  | S fuel' =>
      if (d <=? b * n)%Z then k - 1 else ilog_down fuel' b (b * n) d (k - 1)
  end.

(** [ilog b q], for [q > 0] and [b >= 2], is the [e] with
    [b^e <= q < b^(e+1)]. *)
Definition ilog (b : Z) (q : Q) : Z :=
  let n := Qnum q in
  let d := Zpos (Qden q) in
  if (d <=? n)%Z
  then ilog_up (S (Z.to_nat (Z.log2 n))) b n d 0
  else ilog_down (S (Z.to_nat (Z.log2 d))) b n d 0.

(** [np.floor(np.log(x) / np.log(b))] for a base [b > 1]: the logarithm of
    zero is [-inf], of a negative number nan, of [inf] it is [inf]. *)
Definition floor_log (b : Z) (x : pyfloat) : pyfloat :=
  match x with
  | NaN => NaN
  | Inf true => NaN
  | Inf false => Inf false
  | Fin q =>
      match (q ?= 0)%Q with
      | Eq => Inf true
      | Lt => NaN
      | Gt => Fin (inject_Z (ilog b q))
      end
  end.

(* ------------------------------------------------------------------ *)
(** ** Decimal digits *)

Definition digit_char (d : Z) : ascii := ascii_of_N (Z.to_N (48 + d)).

Definition digit_of_char (c : ascii) : option Z :=
  let d := (Z.of_N (N_of_ascii c) - 48)%Z in
  if ((0 <=? d) && (d <=? 9))%Z then Some d else None.

(** The last [n] decimal digits of [m >= 0], the most significant first. *)
Fixpoint fixed_digits (n : nat) (m : Z) : string :=
  match n with
  | O => ""
  | S n' => fixed_digits n' (m / 10) ++ String (digit_char (m mod 10)) ""
  end.

(** The number of decimal digits of [m >= 0]; zero has one. *)
Definition ndigits (m : Z) : nat :=
  if (m <=? 0)%Z then 1%nat else S (Z.to_nat (ilog 10 (inject_Z m))).

(** The decimal numeral of [m >= 0], without leading zeros. *)
Definition dec (m : Z) : string := fixed_digits (ndigits m) m.

Fixpoint repeat_char (c : ascii) (n : nat) : string :=
  match n with
  | O => ""
  | S n' => String c (repeat_char c n')
  end.

Definition round_half_even (q : Q) : Z :=
  let f := Qfloor q in
  match (q - inject_Z f ?= 1 # 2)%Q with
  | Lt => f
  | Gt => (f + 1)%Z
  | Eq => if Z.even f then f else (f + 1)%Z
  end.

(** The correctly rounded decimal of [q >= 0] with [n >= 1] significant
    digits: [(m, x)] stands for [m * 10^(x - n + 1)], where [m] has exactly
    [n] digits unless [q] is zero. *)
Definition sig_digits (q : Q) (n : nat) : Z * Z :=
  if Qeq_bool q 0 then (0, 0)%Z
  else
    let x := ilog 10 q in
    let m := round_half_even (q * Qpower 10 (Z.of_nat n - 1 - x))%Q in
    if (m =? 10 ^ Z.of_nat n)%Z
    then (10 ^ (Z.of_nat n - 1), x + 1)%Z
    else (m, x).

(** The exponent field of the scientific notation: a sign and at least two
    digits. *)
Definition exp_str (x : Z) : string :=
  (if (x <? 0)%Z then "-" else "+")
    ++ fixed_digits (Nat.max 2 (ndigits (Z.abs x))) (Z.abs x).

(** The [n] digits of the decimal mantissa [m]. *)
Definition digits_str (m : Z) (n : nat) : string := fixed_digits n m.

Definition sign_str (negative : bool) : string :=
  if negative then "-" else "".

(* ------------------------------------------------------------------ *)
(** ** [f'{number:.{precision}e}'] and [float(...)] *)

(** ["d.ddd"]: the point is left out when a single digit is shown. *)
Definition point_after_first (ds : string) : string :=
  match ds with
  | String c "" => String c ""
  | String c rest => String c ("." ++ rest)
  | "" => ""
  end.

(** Scientific notation with [precision] digits after the point, that is
    [precision + 1] significant digits. *)
Definition format_e (x : pyfloat) (precision : nat) : string :=
  match x with
  | NaN => "nan"
  | Inf negative => sign_str negative ++ "inf"
  | Fin q =>
      let (m, x) := sig_digits (Qabs q) (S precision) in
      sign_str (Qltb q 0)
        ++ point_after_first (digits_str m (S precision))
        ++ "e" ++ exp_str x
  end.

(** The part of [s] before the first character that satisfies [p], and
    the part after it when there is one. *)
Fixpoint split_on (p : ascii -> bool) (s : string) : string * option string :=
  match s with
  | "" => ("", None)
  | String c rest =>
      if p c then ("", Some rest)
      else let (a, b) := split_on p rest in (String c a, b)
  end.

Definition is_e (c : ascii) : bool := ((c =? "e") || (c =? "E"))%char.
Definition is_point (c : ascii) : bool := (c =? ".")%char.

(** The value of a string of decimal digits, read from the left. *)
Fixpoint digits_value_from (acc : Z) (s : string) : option Z :=
  match s with
  | "" => Some acc
  | String c rest =>
      match digit_of_char c with
      | Some d => digits_value_from (10 * acc + d) rest
      | None => None
      end
  end.

Definition digits_value (s : string) : option Z := digits_value_from 0 s.

Definition signed (s : string) : bool * string :=
  match s with
  | String "-" rest => (true, rest)
  | String "+" rest => (false, rest)
  | _ => (false, s)
  end.

Definition parse_exponent (o : option string) : option Z :=
  match o with
  | None => Some 0%Z
  | Some t =>
      let (negative, ds) := signed t in
      match ds with
      | "" => None
      | _ => option_map (fun v => if negative then (- v)%Z else v)
                        (digits_value ds)
      end
  end.

(** [digits[.digits][e[sign]digits]], with a digit on one side of the
    point at least. *)
Definition parse_decimal (s : string) : option Q :=
  let (mant, ex) := split_on is_e s in
  let (ip, fo) := split_on is_point mant in
  let fp := match fo with Some f => f | None => "" end in
  match ip ++ fp with
  | "" => None
  | ds =>
      match digits_value ds, parse_exponent ex with
      | Some m, Some e =>
          Some (inject_Z m * Qpower 10 (e - Z.of_nat (String.length fp)))%Q
      | _, _ => None
      end
  end.

(** [float(s)] on the strings a float prints as: a [ValueError] for
    anything else, an infinity when the value is beyond the doubles. *)
Definition float_of_string (s : string) : result pyfloat :=
  let (negative, body) := signed s in
  let with_sign x := if negative then float_neg x else x in
  if (body =? "inf")%string then Ok (with_sign (Inf false))
  else if (body =? "nan")%string then Ok NaN
  else match parse_decimal body with
       | Some q => Ok (with_sign (to_double q))
       | None => Raise ValueError
       end.

(* ------------------------------------------------------------------ *)
(** ** [f'{x:{s}.{precision}g}'] *)

(** The part of a format specification that may precede the precision,
    [[[fill]align][sign][#][0][width]], after parsing: a [0] before the
    width is the fill ["0"] with the alignment [=].  The thousands
    separators are not modelled.  [''] is [spec_empty]. *)
Inductive align_opt : Set :=
| AlignLeft        (* < *)
| AlignRight       (* > , the default for numbers *)
| AlignCenter      (* ^ *)
| AlignAfterSign.  (* = *)

Inductive sign_opt : Set :=
| SignMinus        (* - , the default *)
| SignPlus         (* + *)
| SignSpace.       (* a space *)

Record format_spec : Set := {
  fill : ascii;
  align : align_opt;
  sign : sign_opt;
  alternate : bool;
  width : nat
}.

Definition spec_empty : format_spec :=
  {| fill := " "; align := AlignRight; sign := SignMinus;
     alternate := false; width := 0 |}.

Fixpoint rstrip_zeros (s : string) : string :=
  match s with
  | "" => ""
  | String c rest =>
      match rstrip_zeros rest with
      | "" => if (c =? "0")%char then "" else String c ""
      | rest' => String c rest'
      end
  end.

(** The digits after the point: trailing zeros and then a bare point are
    dropped, unless the alternate form [#] is asked for. *)
Definition fraction (alt : bool) (frac : string) : string :=
  if alt then "." ++ frac
  else match rstrip_zeros frac with
       | "" => ""
       | f => "." ++ f
       end.

(** The general format of [q >= 0]: [precision] significant digits (one
    when [precision] is 0), scientific when the decimal exponent is below
    -4 or not below the precision. *)
Definition g_body (q : Q) (precision : nat) (alt : bool) : string :=
  let p := Nat.max 1 precision in
  let (m, x) := sig_digits q p in
  let ds := digits_str m p in
  if ((x <? -4) || (Z.of_nat p <=? x))%Z then
    match ds with
    | String c rest => String c (fraction alt rest) ++ "e" ++ exp_str x
    | "" => ""
    end
  else if (x <? 0)%Z then
    "0" ++ fraction alt (repeat_char "0" (Z.to_nat (- x - 1)) ++ ds)
  else
    let k := S (Z.to_nat x) in
    substring 0 k ds ++ fraction alt (substring k (p - k)%nat ds).

Definition sign_prefix (negative : bool) (sg : sign_opt) : string :=
  if negative then "-"
  else match sg with
       | SignPlus => "+"
       | SignSpace => " "
       | SignMinus => ""
       end.

Definition pad (sp : format_spec) (sgn body : string) : string :=
  let n := (width sp - (String.length sgn + String.length body))%nat in
  let f := repeat_char (fill sp) in
  match align sp with
  | AlignLeft => sgn ++ body ++ f n
  | AlignRight => f n ++ sgn ++ body
  | AlignAfterSign => sgn ++ f n ++ body
  | AlignCenter => f (n / 2)%nat ++ sgn ++ body ++ f (n - n / 2)%nat
  end.

Definition format_g (x : pyfloat) (s : format_spec) (precision : nat)
  : string :=
  match x with
  | NaN => pad s (sign_prefix false (sign s)) "nan"
  | Inf negative => pad s (sign_prefix negative (sign s)) "inf"
  | Fin q =>
      pad s (sign_prefix (Qltb q 0) (sign s))
            (g_body (Qabs q) precision (alternate s))
  end.

(* ------------------------------------------------------------------ *)
(** ** formatSI *)

(** [f'{n:+1d}'] *)
Definition format_plus_d (n : Z) : string :=
  (if (n <? 0)%Z then "-" else "+") ++ dec (Z.abs n).

Definition prefixDict : list (string * string) :=
  [ ("-4", "p"); ("-3", "n"); ("-2", "μ"); ("-1", "m"); ("+0", "");
    ("+1", "k"); ("+2", "M"); ("+3", "G"); ("+4", "T") ].

Fixpoint dict_get (d : list (string * string)) (key : string)
  : option string :=
  match d with
  | [] => None
  | (k, v) :: d' => if (k =? key)%string then Some v else dict_get d' key
  end.

(** [np.floor(np.log(abs(number))/np.log(1e3))] *)
Definition baseThousand (number : pyfloat) : pyfloat :=
  floor_log 1000 (float_abs number).

(** [f'{int(baseThousand):+1d}'] *)
Definition prefixKey (number : pyfloat) : result string :=
  n <- py_int (baseThousand number) ;;
  Ok (format_plus_d n).

(** [number/(1e3**baseThousand)] *)
Definition shortenedDigits (number : pyfloat) : pyfloat :=
  float_div number (float_pow 1000 (baseThousand number)).

Definition formatSI (number : pyfloat) (precision : nat) (s : format_spec)
  : result string :=
  if float_eq0 number then Ok (format_g (Fin 0) s precision ++ " ")
  else
    number <- float_of_string (format_e number precision) ;;
    key <- prefixKey number ;;
    match dict_get prefixDict key with
    | Some prefix =>
        Ok (format_g (shortenedDigits number) s precision ++ " " ++ prefix)
    | None => Ok (format_g number s precision ++ " ")
    end.

(** The float written [m e x] in decimal, [m * 10^x]. *)
Definition decimal (m x : Z) : pyfloat := Fin (inject_Z m * Qpower 10 x).

(* ------------------------------------------------------------------ *)
(** ** Notions used in the statements *)

Definition digit_chars : list ascii :=
  ["0"; "1"; "2"; "3"; "4"; "5"; "6"; "7"; "8"; "9"]%char.

Definition is_digit (c : ascii) : bool :=
  match digit_of_char c with
  | Some _ => true
  | None => false
  end.

Fixpoint all_digits (s : string) : bool :=
  match s with
  | "" => true
  | String c rest => is_digit c && all_digits rest
  end.

Definition sample_999_6 : pyfloat := decimal 9996 (-1).
Definition sample_999_96 : pyfloat := decimal 99996 (-2).

(** The table of prefixes as the specification lists it, by exponent. *)
Definition si_symbol (e : Z) : string :=
  match e with
  | (-4)%Z => "p"
  | (-3)%Z => "n"
  | (-2)%Z => String (ascii_of_nat 206) (String (ascii_of_nat 188) "")
  | (-1)%Z => "m"
  | 1%Z => "k"
  | 2%Z => "M"
  | 3%Z => "G"
  | 4%Z => "T"
  | _ => ""
  end.

(** What [float()] reads from a string without a sign. *)
Inductive nonneg_float : pyfloat -> Prop :=
| nonneg_fin (q : Q) : 0 <= q -> nonneg_float (Fin q)
| nonneg_inf : nonneg_float (Inf false)
| nonneg_nan : nonneg_float NaN.

(** After the rounding: the key, the lookup and the rendering. *)
Definition render (number : pyfloat) (precision : nat) (s : format_spec)
  : result string :=
  key <- prefixKey number ;;
  match dict_get prefixDict key with
  | Some prefix =>
      Ok (format_g (shortenedDigits number) s precision ++ " " ++ prefix)
  | None => Ok (format_g number s precision ++ " ")
  end.

Fixpoint none_of (p : ascii -> bool) (s : string) : bool :=
  match s with
  | "" => true
  | String c rest => negb (p c) && none_of p rest
  end.



(* ------------------------------------------------------------------ *)
(** ** The plotting library, as far as [Curve] uses it

    An [Axes] holds what was drawn on it and its view limits.  Drawing a
    line may move the limits (autoscaling) in a way that is left open:
    [autoscale] is any function.  An annotation does not take part in
    autoscaling, and the setters store the pair they are given. *)

Inductive artist : Type :=
| Line2D (xs ys : Q * Q)
| VLines (x ymin ymax : Q)
| HLines (y xmin xmax : Q)
| Annotation (label : option string) (xy : Q * Q) (xytext : Z * Z).

Record Axes : Type := {
  artists : list artist;
  xlim : Q * Q;
  ylim : Q * Q
}.

(** A method body: it runs on the axes, ends normally or with an
    exception, and leaves the axes as they are at that point. *)
Definition action (A : Type) : Type := Axes -> result A * Axes.

Definition ret {A : Type} (a : A) : action A := fun ax => (Ok a, ax).

Definition throw {A : Type} (e : exn) : action A := fun ax => (Raise e, ax).

Definition then_ {A B : Type} (c : action A) (k : A -> action B) : action B :=
  fun ax =>
    match c ax with
    | (Ok a, ax') => k a ax'
    | (Raise e, ax') => (Raise e, ax')
    end.

Notation "x <~ c ;; k" := (then_ c (fun x => k))
  (at level 61, c at next level, right associativity).
Notation "c ;;; k" := (then_ c (fun _ => k))
  (at level 61, right associativity).

(** The names bound at module level in thesistools.py. *)
Definition module_globals : list string :=
  [ "np"; "plt"; "patches"; "marginWidth"; "textWidth"; "fullWidth";
    "createAxes"; "hideAxisLables"; "annotateAxis"; "setLabels";
    "formatSI"; "Curve" ].

Section CurveModel.

(** What adding a line does to the limits [(xlim, ylim)]. *)
Variable autoscale : list artist -> (Q * Q) * (Q * Q) -> (Q * Q) * (Q * Q).

(** The names of the [builtins] module. *)
Variable builtins : list string.

(** [self.func] *)
Variable func : Q -> Q.

Definition add_autoscaled (a : artist) : action unit :=
  fun ax =>
    let arts := (artists ax ++ [a])%list in
    let lims := autoscale arts (xlim ax, ylim ax) in
    (Ok tt, {| artists := arts; xlim := fst lims; ylim := snd lims |}).

(** [ax.plot((x0, x1), (y0, y1), **fmt)] *)
Definition ax_plot (xs ys : Q * Q) : action unit :=
  add_autoscaled (Line2D xs ys).

(** [ax.vlines(x, ymin, ymax, **fmt)] *)
Definition ax_vlines (x ymin ymax : Q) : action unit :=
  add_autoscaled (VLines x ymin ymax).

(** [ax.hlines(y, xmin, xmax, **fmt)] *)
Definition ax_hlines (y xmin xmax : Q) : action unit :=
  add_autoscaled (HLines y xmin xmax).

(** [ax.annotate(label, xy, xytext, ...)] *)
Definition ax_annotate (label : option string) (xy : Q * Q) (xytext : Z * Z)
  : action unit :=
  fun ax =>
    (Ok tt, {| artists := (artists ax ++ [Annotation label xy xytext])%list;
               xlim := xlim ax; ylim := ylim ax |}).

Definition ax_get_xlim : action (Q * Q) := fun ax => (Ok (xlim ax), ax).
Definition ax_get_ylim : action (Q * Q) := fun ax => (Ok (ylim ax), ax).

Definition ax_set_xlim (lo hi : Q) : action unit :=
  fun ax =>
    (Ok tt, {| artists := artists ax; xlim := (lo, hi); ylim := ylim ax |}).

Definition ax_set_ylim (lo hi : Q) : action unit :=
  fun ax =>
    (Ok tt, {| artists := artists ax; xlim := xlim ax; ylim := (lo, hi) |}).

(** Evaluating a name that no function assigns: looked up among the
    module's globals, then the builtins. *)
Definition load_global (name : string) : action unit :=
  if existsb (String.eqb name) (module_globals ++ builtins)%list
  then ret tt
  else throw NameError.

(** [a * pos + b] where [pos] may be [None]. *)
Definition along (a : Q) (pos : option Q) (b : Q) : action Q :=
  match pos with
  | Some p => ret (a * p + b)%Q
  | None => throw TypeError
  end.

Definition plot_line (min_ max_ : Q) (pos : option Q) (label : option string)
  : action unit :=
  let y_min := func min_ in
  let y_max := func max_ in
  ax_plot (min_, max_) (y_min, y_max) ;;;
  (match pos with None => load_global "Return" | Some _ => ret tt end) ;;;
  y_label <~ along (y_max - y_min) pos y_min ;;
  x_label <~ along (max_ - min_) pos min_ ;;
  (match label with None => load_global "Return" | Some _ => ret tt end) ;;;
  ax_annotate label (x_label, y_label) (-30, 30)%Z.

Definition draw_connecting_hline (x : Q) (label : option string)
  (pos : option Q) : action unit :=
  lims <~ ax_get_ylim ;;
  let (min_y, max_y) := lims in
  let curve_y := func x in
  ax_vlines x min_y curve_y ;;;
  ax_set_ylim min_y max_y ;;;
  match label with
  | None => ret tt
  | Some l =>
      label_y <~ along (curve_y - min_y) pos min_y ;;
      ax_annotate (Some l) (x, label_y) (5, 0)%Z
  end.

Definition draw_connecting_vline (x : Q) (label : option string)
  (pos : option Q) : action unit :=
  lims <~ ax_get_xlim ;;
  let (min_x, max_x) := lims in
  let curve_y := func x in
  ax_hlines curve_y min_x x ;;;
  ax_set_xlim min_x max_x ;;;
  match label with
  | None => ret tt
  | Some _ => ret tt
  end.

End CurveModel.

Definition blank_axes : Axes :=
  {| artists := []; xlim := (0, 1); ylim := (0, 1) |}.

(* ------------------------------------------------------------------ *)
(** ** [createAxes] and [setLabels]

    [nAxes] and [colWrap] are Python ints and no keyword is passed on, so
    [plt.subplots] runs with [squeeze=True]: it refuses a number of rows
    or of columns that is not positive, and gives back one [Axes] for a
    1 x 1 grid, a 1-D array for a single row or column, a 2-D array
    otherwise, the cells in row-major order.  The division [nAxes/nCols]
    and [np.ceil] are exact, and [np.int] is [int], as in the versions of
    NumPy that have it.  [axesHeight] and [aspect] are finite numbers.
    The figure is made before the grid, and a negative width or height is
    refused with a [ValueError].  A width or height of zero passes here;
    the versions of the library differ on it, and no statement of this
    file rests on it.  An [Axes] is kept as far as the two functions use
    it: its place in the grid, whether its axis is drawn, and its two
    labels. *)

Module Grid.

Inductive error : Set :=
| ZeroDivisionError
| ValueError
| TypeError
| AttributeError
| IndexError.

Inductive outcome (A : Type) : Type :=
| Done (a : A)
| Fails (e : error).

Arguments Done {A} a.
Arguments Fails {A} e.

(** One cell of the grid: its place, the size of the grid, whether its
    axis is drawn, and its labels. *)
Record Subplot : Set := {
  row : nat;
  col : nat;
  nrows : nat;
  ncols : nat;
  axis_on : bool;
  xlabel : option string;
  ylabel : option string
}.

Definition new_subplot (nr nc r c : nat) : Subplot :=
  {| row := r; col := c; nrows := nr; ncols := nc; axis_on := true;
     xlabel := None; ylabel := None |}.

(** What [plt.subplots] returns for the axes. *)
Inductive ndarray : Set :=
| Scalar (a : Subplot)
| Array1 (l : list Subplot)
| Array2 (rows : list (list Subplot)).

Record Figure : Set := { figsize : Q * Q }.

Definition grid_cells (nr nc : nat) : list (list Subplot) :=
  List.map (fun r => List.map (fun c => new_subplot nr nc r c) (seq 0 nc))
    (seq 0 nr).

(** [plt.subplots(ncols=nCols, nrows=nRows, figsize=...)]: the figure
    first, then the grid. *)
Definition subplots (nCols nRows : Z) (size : Q * Q)
  : outcome (Figure * ndarray) :=
  if (Qltb (fst size) 0 || Qltb (snd size) 0)%bool then Fails ValueError
  else if ((nRows <=? 0) || (nCols <=? 0))%Z then Fails ValueError
  else
    let nr := Z.to_nat nRows in
    let nc := Z.to_nat nCols in
    let cells := grid_cells nr nc in
    let fig := {| figsize := size |} in
    match cells with
    | [[a]] => Done (fig, Scalar a)
    | _ =>
        if ((nRows =? 1) || (nCols =? 1))%Z
        then Done (fig, Array1 (concat cells))
        else Done (fig, Array2 cells)
    end.

(** [axs.flatten()] *)
Definition flatten (axs : ndarray) : outcome ndarray :=
  match axs with
  | Scalar _ => Fails AttributeError
  | Array1 l => Done (Array1 l)
  | Array2 rows => Done (Array1 (concat rows))
  end.

(** [ax.axis('off')] *)
Definition axis_off (a : Subplot) : Subplot :=
  {| row := row a; col := col a; nrows := nrows a; ncols := ncols a;
     axis_on := false; xlabel := xlabel a; ylabel := ylabel a |}.

Fixpoint update_nth (i : nat) (f : Subplot -> Subplot) (l : list Subplot)
  : list Subplot :=
  match l, i with
  | [], _ => []
  | a :: l', O => f a :: l'
  | a :: l', S i' => a :: update_nth i' f l'
  end.

(** [axs[-k].axis('off')] for [k >= 1] *)
Definition off_from_end (k : nat) (axs : ndarray) : outcome ndarray :=
  match axs with
  | Scalar _ => Fails TypeError
  | Array2 _ => Fails AttributeError
  | Array1 l =>
      if (k <=? List.length l)%nat
      then Done (Array1 (update_nth (List.length l - k) axis_off l))
      else Fails IndexError
  end.

(** [for blankAxes in range(nAxesBlank): axs[-(blankAxes+1)].axis('off')],
    from [blankAxes = done] on, [todo] rounds left. *)
Fixpoint blank_loop (todo done : nat) (axs : ndarray) : outcome ndarray :=
  match todo with
  | O => Done axs
  | S todo' =>
      match off_from_end (S done) axs with
      | Done axs' => blank_loop todo' (S done) axs'
      | Fails e => Fails e
      end
  end.

Definition createAxes (nAxes colWrap : Z) (axesHeight aspect : Q)
  : outcome (Figure * ndarray) :=
  let nCols := Z.min nAxes colWrap in
  if (nCols =? 0)%Z then Fails ZeroDivisionError
  else
    let nRows := Qceiling (inject_Z nAxes / inject_Z nCols) in
    let nAxesBlank := (nCols * nRows - nAxes)%Z in
    let axesWidth := axesHeight * aspect in
    let figWidth := inject_Z nCols * axesWidth in
    let figHeight := inject_Z nRows * axesHeight in
    match subplots nCols nRows (figWidth, figHeight) with
    | Fails e => Fails e
    | Done (fig, axs) =>
        match (if (1 <? nRows)%Z then flatten axs else Done axs) with
        | Fails e => Fails e
        | Done axs =>
            match blank_loop (Z.to_nat nAxesBlank) 0 axs with
            | Fails e => Fails e
            | Done axs => Done (fig, axs)
            end
        end
    end.

(** [ax.is_first_col()], [ax.is_last_row()] *)
Definition is_first_col (a : Subplot) : bool := (col a =? 0)%nat.
Definition is_last_row (a : Subplot) : bool := (S (row a) =? nrows a)%nat.

(** One round of the loop of [setLabels]. *)
Definition label_one (ylabels xlabels : option string) (a : Subplot)
  : Subplot :=
  {| row := row a; col := col a; nrows := nrows a; ncols := ncols a;
     axis_on := axis_on a;
     xlabel := match xlabels with
               | Some x => if is_last_row a then Some x else xlabel a
               | None => xlabel a
               end;
     ylabel := match ylabels with
               | Some y => if is_first_col a then Some y else ylabel a
               | None => ylabel a
               end |}.

(** [setLabels(axs, ylabels, xlabels)]: a single [Axes] cannot be iterated
    over; the items of a 2-D array are its rows, which have neither
    [is_first_col] nor [is_last_row]. *)
Definition setLabels (axs : ndarray) (ylabels xlabels : option string)
  : outcome ndarray :=
  match axs with
  | Scalar _ => Fails TypeError
  | Array1 l => Done (Array1 (List.map (label_one ylabels xlabels) l))
  | Array2 [] => Done axs
  | Array2 (_ :: _) =>
      match ylabels, xlabels with
      | None, None => Done axs
      | _, _ => Fails AttributeError
      end
  end.

(** The cell expected at place [i] of the flat array of an [R] x [C] grid
    made for [N] axes and labelled with [yl] and [xl]. *)
Definition grid_cell (R C N : nat) (yl xl : option string) (i : nat)
  : Subplot :=
  {| row := i / C; col := i mod C; nrows := R; ncols := C;
     axis_on := (i <? N)%nat;
     xlabel := if (S (i / C) =? R)%nat then xl else None;
     ylabel := if (i mod C =? 0)%nat then yl else None |}.

End Grid.

(* ------------------------------------------------------------------ *)
(** ** [Curve.get_curve] *)



(* ================================================================== *)
(** * Facts about [formatSI] *)

(** ** Integer logarithms *)

Lemma ilog_up_spec (b : Z) :
  (2 <= b)%Z ->
  forall (fuel : nat) (n d k : Z),
    (0 < d)%Z -> (d <= n)%Z -> (n < b ^ Z.of_nat fuel * d)%Z ->
    exists j : Z,
      (0 <= j)%Z /\ ilog_up fuel b n d k = (k + j)%Z
      /\ (b ^ j * d <= n < b ^ (j + 1) * d)%Z.
Proof.
  intros Hb. induction fuel as [|fuel IH]; intros n d k Hd Hdn Hfuel.
  - change (Z.of_nat 0) with 0%Z in Hfuel. rewrite Z.pow_0_r in Hfuel. lia.
  - cbn [ilog_up]. destruct (Z.leb_spec (b * d) n) as [Hle|Hgt].
    + destruct (IH n (b * d)%Z (k + 1)%Z) as (j & Hj & -> & Hlo & Hhi).
      * lia.
      * exact Hle.
      * rewrite Nat2Z.inj_succ, Z.pow_succ_r in Hfuel by lia. lia.
      * exists (j + 1)%Z. split; [lia|]. split; [lia|].
        rewrite !Z.pow_add_r, Z.pow_1_r in * by lia. lia.
    + exists 0%Z. split; [lia|]. split; [lia|].
      rewrite Z.pow_0_r, Z.add_0_l, Z.pow_1_r. lia.
Qed.

Lemma ilog_down_spec (b : Z) :
  (2 <= b)%Z ->
  forall (fuel : nat) (n d k : Z),
    (0 < n)%Z -> (n < d)%Z -> (d <= b ^ Z.of_nat fuel * n)%Z ->
    exists j : Z,
      (1 <= j)%Z /\ ilog_down fuel b n d k = (k - j)%Z
      /\ (b ^ (j - 1) * n < d <= b ^ j * n)%Z.
Proof.
  intros Hb. induction fuel as [|fuel IH]; intros n d k Hn Hnd Hfuel.
  - change (Z.of_nat 0) with 0%Z in Hfuel. rewrite Z.pow_0_r in Hfuel. lia.
  - cbn [ilog_down]. destruct (Z.leb_spec d (b * n)) as [Hle|Hgt].
    + exists 1%Z. split; [lia|]. split; [lia|].
      rewrite Z.sub_diag, Z.pow_0_r, Z.pow_1_r. lia.
    + destruct (IH (b * n)%Z d (k - 1)%Z) as (j & Hj & -> & Hlo & Hhi).
      * lia.
      * exact Hgt.
      * rewrite Nat2Z.inj_succ, Z.pow_succ_r in Hfuel by lia. lia.
      * exists (j + 1)%Z. split; [lia|]. split; [lia|].
        replace (j + 1 - 1)%Z with (j - 1 + 1)%Z by lia.
        rewrite !Z.pow_add_r, Z.pow_1_r in * by lia. lia.
Qed.

Lemma pow_beyond (b n : Z) :
  (2 <= b)%Z -> (0 < n)%Z ->
  (n < b ^ Z.of_nat (S (Z.to_nat (Z.log2 n))))%Z.
Proof.
  intros Hb Hn.
  rewrite Nat2Z.inj_succ, Z2Nat.id by apply Z.log2_nonneg.
  pose proof (Z.log2_spec n Hn) as [_ H].
  apply (Z.lt_le_trans _ _ _ H).
  apply Z.pow_le_mono_l. lia.
Qed.

(** [ilog b q] is the exponent of the power of [b] just below [q]. *)
Lemma ilog_spec (b : Z) (q : Q) :
  (2 <= b)%Z -> 0 < q ->
  Qpower (inject_Z b) (ilog b q) <= q
  /\ q < Qpower (inject_Z b) (ilog b q + 1).
Proof.
  intros Hb Hq. destruct q as [n d].
  assert (Hn : (0 < n)%Z).
  { unfold Qlt in Hq. cbn in Hq. lia. }
  unfold ilog. cbn [Qnum Qden].
  destruct (Z.leb_spec (Z.pos d) n) as [Hdn|Hnd].
  - destruct (ilog_up_spec b Hb (S (Z.to_nat (Z.log2 n))) n (Z.pos d) 0)
      as (j & Hj & -> & Hlo & Hhi).
    + lia.
    + exact Hdn.
    + pose proof (pow_beyond b n Hb Hn). nia.
    + rewrite Z.add_0_l.
      rewrite <- !Zpower_Qpower by lia.
      unfold Qle, Qlt, inject_Z. cbn [Qnum Qden]. lia.
  - destruct (ilog_down_spec b Hb (S (Z.to_nat (Z.log2 (Z.pos d)))) n (Z.pos d) 0)
      as (j & Hj & -> & Hlo & Hhi).
    + exact Hn.
    + exact Hnd.
    + pose proof (pow_beyond b (Z.pos d) Hb ltac:(lia)). nia.
    + assert (Pj : (0 < b ^ j)%Z) by (apply Z.pow_pos_nonneg; lia).
      assert (Pj1 : (0 < b ^ (j - 1))%Z) by (apply Z.pow_pos_nonneg; lia).
      split.
      * replace (0 - j)%Z with (- j)%Z by lia.
        rewrite Qpower_opp, <- Zpower_Qpower by lia.
        apply Qle_shift_inv_r.
        -- unfold Qlt, inject_Z. cbn. lia.
        -- unfold Qle, Qmult, inject_Z. cbn [Qnum Qden]. lia.
      * replace (0 - j + 1)%Z with (- (j - 1))%Z by lia.
        rewrite Qpower_opp, <- Zpower_Qpower by lia.
        apply Qlt_shift_inv_l.
        -- unfold Qlt, inject_Z. cbn. lia.
        -- unfold Qlt, Qmult, inject_Z. cbn [Qnum Qden]. lia.
Qed.

(** ** Decimal digits *)

Lemma digit_range (d : Z) :
  (0 <= d <= 9)%Z ->
  (d = 0 \/ d = 1 \/ d = 2 \/ d = 3 \/ d = 4
   \/ d = 5 \/ d = 6 \/ d = 7 \/ d = 8 \/ d = 9)%Z.
Proof. lia. Qed.

Ltac each_digit H :=
  apply digit_range in H;
  repeat (destruct H as [-> | H]); [..|subst].

Lemma digit_of_digit_char (d : Z) :
  (0 <= d <= 9)%Z -> digit_of_char (digit_char d) = Some d.
Proof. intros H. each_digit H; reflexivity. Qed.

Lemma digit_char_in (d : Z) : (0 <= d <= 9)%Z -> In (digit_char d) digit_chars.
Proof. intros H. each_digit H; cbn; tauto. Qed.

Lemma digit_of_char_inv (c : ascii) (d : Z) :
  digit_of_char c = Some d -> (0 <= d <= 9)%Z /\ c = digit_char d.
Proof.
  unfold digit_of_char, digit_char.
  destruct (Z.leb_spec 0 (Z.of_N (N_of_ascii c) - 48));
    destruct (Z.leb_spec (Z.of_N (N_of_ascii c) - 48) 9);
    cbn [andb]; try discriminate.
  intros [= <-]. split; [lia|].
  replace (48 + (Z.of_N (N_of_ascii c) - 48))%Z with (Z.of_N (N_of_ascii c))
    by lia.
  now rewrite N2Z.id, ascii_N_embedding.
Qed.

Lemma is_digit_in (c : ascii) : is_digit c = true -> In c digit_chars.
Proof.
  unfold is_digit. destruct (digit_of_char c) as [d|] eqn:E; [|discriminate].
  intros _. apply digit_of_char_inv in E as [R ->]. now apply digit_char_in.
Qed.

Lemma mod10_range (m : Z) : (0 <= m mod 10 <= 9)%Z.
Proof. pose proof (Z.mod_pos_bound m 10). lia. Qed.

Lemma all_digits_app (s t : string) :
  all_digits (s ++ t) = all_digits s && all_digits t.
Proof.
  induction s as [|c s IH]; cbn; [reflexivity|].
  now rewrite IH, andb_assoc.
Qed.

Lemma fixed_digits_all (n : nat) (m : Z) : all_digits (fixed_digits n m) = true.
Proof.
  revert m. induction n as [|n IH]; intros m; cbn [fixed_digits];
    [reflexivity|].
  rewrite all_digits_app, IH. cbn. unfold is_digit.
  now rewrite digit_of_digit_char by apply mod10_range.
Qed.

Lemma append_length (s t : string) :
  String.length (s ++ t) = (String.length s + String.length t)%nat.
Proof. induction s as [|c s IH]; cbn; [reflexivity|]. now rewrite IH. Qed.

Lemma fixed_digits_length (n : nat) (m : Z) :
  String.length (fixed_digits n m) = n.
Proof.
  revert m. induction n as [|n IH]; intros m; cbn [fixed_digits];
    [reflexivity|].
  rewrite append_length, IH. cbn. lia.
Qed.

Lemma digits_value_from_app (acc : Z) (s t : string) :
  digits_value_from acc (s ++ t)
  = match digits_value_from acc s with
    | Some a => digits_value_from a t
    | None => None
    end.
Proof.
  revert acc. induction s as [|c s IH]; intros acc; cbn; [reflexivity|].
  destruct (digit_of_char c); [apply IH|reflexivity].
Qed.

(** Reading [n] printed digits back gives the number modulo [10^n]. *)
Lemma digits_value_fixed (n : nat) (m acc : Z) :
  digits_value_from acc (fixed_digits n m)
  = Some (acc * 10 ^ Z.of_nat n + m mod 10 ^ Z.of_nat n)%Z.
Proof.
  revert m acc. induction n as [|n IH]; intros m acc.
  - cbn. f_equal. rewrite Z.mod_1_r. lia.
  - cbn [fixed_digits]. rewrite digits_value_from_app, IH.
    cbn [digits_value_from].
    rewrite digit_of_digit_char by apply mod10_range.
    f_equal. rewrite Nat2Z.inj_succ, Z.pow_succ_r by lia.
    rewrite (Z.rem_mul_r m 10 (10 ^ Z.of_nat n)) by lia. lia.
Qed.

Lemma ilog_nonneg (m : Z) : (0 < m)%Z -> (0 <= ilog 10 (inject_Z m))%Z.
Proof.
  intros H.
  destruct (ilog_spec 10 (inject_Z m)) as [_ Hhi]; [lia| |].
  { unfold Qlt, inject_Z. cbn. lia. }
  destruct (Z.lt_ge_cases (ilog 10 (inject_Z m)) 0) as [N|]; [|assumption].
  exfalso. apply (Qlt_not_le _ _ Hhi).
  apply Qle_trans with 1.
  - change 1 with (Qpower (inject_Z 10) 0).
    apply Qpower_le_compat_l; [lia|]. unfold Qle. cbn. lia.
  - unfold Qle, inject_Z. cbn. lia.
Qed.

Lemma ndigits_bound (m : Z) :
  (0 <= m)%Z -> (m < 10 ^ Z.of_nat (ndigits m))%Z.
Proof.
  intros H. unfold ndigits. destruct (Z.leb_spec m 0) as [Hz|Hp].
  - assert (m = 0)%Z as -> by lia. reflexivity.
  - pose proof (ilog_nonneg m Hp) as Hn.
    destruct (ilog_spec 10 (inject_Z m)) as [_ Hhi]; [lia| |].
    { unfold Qlt, inject_Z. cbn. lia. }
    rewrite Nat2Z.inj_succ, Z2Nat.id by exact Hn.
    rewrite <- Zpower_Qpower in Hhi by lia.
    unfold Qlt, inject_Z in Hhi. cbn [Qnum Qden] in Hhi.
    unfold inject_Z. rewrite <- Z.add_1_r. lia.
Qed.

Lemma digits_value_dec (m : Z) : (0 <= m)%Z -> digits_value (dec m) = Some m.
Proof.
  intros H. unfold digits_value, dec. rewrite digits_value_fixed.
  f_equal. rewrite Z.mod_small; [lia|].
  split; [exact H|]. now apply ndigits_bound.
Qed.

Lemma dec_inj (a b : Z) : (0 <= a)%Z -> (0 <= b)%Z -> dec a = dec b -> a = b.
Proof.
  intros Ha Hb E. apply (f_equal digits_value) in E.
  rewrite !digits_value_dec in E by assumption. now injection E.
Qed.

(** ** The zero input *)

Lemma repeat_char_snoc c n :
  repeat_char c n ++ String c "" = String c (repeat_char c n).
Proof.
  induction n as [|n IH]; simpl; [reflexivity|].
  now rewrite IH.
Qed.

Lemma fixed_digits_zero (n : nat) : fixed_digits n 0 = repeat_char "0" n.
Proof.
  induction n as [|n IH]; cbn [fixed_digits repeat_char]; [reflexivity|].
  change (0 / 10)%Z with 0%Z. rewrite IH. apply repeat_char_snoc.
Qed.

Lemma digits_str_zero n : digits_str 0 (S n) = String "0" (repeat_char "0" n).
Proof. unfold digits_str. apply fixed_digits_zero. Qed.

Lemma substring_repeat_char c n :
  substring 0 n (repeat_char c n) = repeat_char c n.
Proof.
  induction n as [|n IH]; simpl; [reflexivity|].
  now rewrite IH.
Qed.

(** The general format of zero: a single ["0"], followed in the alternate
    form by the point and the remaining [precision - 1] zeros. *)
Lemma g_body_zero precision alt :
  g_body 0 precision alt
  = "0" ++ fraction alt (repeat_char "0" (Nat.max 1 precision - 1)).
Proof.
  unfold g_body.
  destruct (Nat.max 1 precision) as [|n] eqn:E; [lia|].
  change (sig_digits 0 (S n)) with (0%Z, 0%Z).
  cbv beta iota zeta.
  rewrite digits_str_zero.
  change ((0 <? -4)%Z) with false.
  change ((0 <? 0)%Z) with false.
  replace ((Z.of_nat (S n) <=? 0)%Z) with false
    by (symmetry; apply Z.leb_gt; lia).
  cbn [orb Z.to_nat].
  replace (S n - 1)%nat with n by lia.
  simpl substring.
  replace (substring 0 0 (repeat_char "0" n)) with ""
    by now destruct (repeat_char "0" n).
  now rewrite substring_repeat_char.
Qed.

(** C6.  [formatSI(0, p, s)] is zero in the general format with precision
    [p] under the specification [s], then one space, and nothing after it:
    no prefix symbol.  The rendering of zero is a single ["0"], padded as
    [s] asks, with the point and [p - 1] further zeros in the alternate
    form only. *)
Theorem formatSI_zero (p : nat) (s : format_spec) :
  formatSI (Fin 0) p s = Ok (format_g (Fin 0) s p ++ " ")
  /\ format_g (Fin 0) s p
     = pad s (sign_prefix false (sign s))
             ("0" ++ fraction (alternate s)
                              (repeat_char "0" (Nat.max 1 p - 1)))
  /\ formatSI (Fin 0) p spec_empty = Ok "0 ".
Proof.
  split; [reflexivity|]. split.
  - unfold format_g. change (Qabs 0) with 0%Q. now rewrite g_body_zero.
  - unfold formatSI, format_g. cbn [float_eq0]. change (Qeq_bool 0 0) with true.
    cbv iota. change (Qabs 0) with 0%Q. rewrite g_body_zero.
    cbn [alternate spec_empty fraction].
    assert (R : forall n, rstrip_zeros (repeat_char "0" n) = "").
    { induction n as [|n IH]; simpl; [reflexivity|]. now rewrite IH. }
    rewrite R. reflexivity.
Qed.

(** ** Evaluations *)

(** C2.  At precision 3 the rounding step keeps four significant digits
    (three after the point): 999.6 stays 999.6, falls in the tier of
    exponent 0, and is then shown with three digits as [1e+03] under the
    empty prefix. *)
Theorem formatSI_999_6 :
  format_e sample_999_6 3 = "9.996e+02"
  /\ float_of_string (format_e sample_999_6 3) = Ok (Fin (9996 # 10))
  /\ prefixKey (Fin (9996 # 10)) = Ok "+0"
  /\ formatSI sample_999_6 3 spec_empty = Ok "1e+03 ".
Proof. repeat split; vm_compute; reflexivity. Qed.

(** C3.  999.96 is rounded to 1000 by the rounding step; the exponent of
    1000 in base 1000 is 1; the number shown is [1000 / 1000^1 = 1], which
    the general format writes as ["1"]; the result carries the prefix
    [k], and is not ["1000 "]. *)
Theorem formatSI_999_96 :
  exists rounded mantissa : Q,
    float_of_string (format_e sample_999_96 3) = Ok (Fin rounded)
    /\ rounded == 1000
    /\ py_int (baseThousand (Fin rounded)) = Ok 1%Z
    /\ shortenedDigits (Fin rounded) = Fin mantissa
    /\ mantissa == 1
    /\ formatSI sample_999_96 3 spec_empty = Ok "1 k"
    /\ formatSI sample_999_96 3 spec_empty <> Ok "1000 ".
Proof.
  exists (1000 # 1), (1000 # 1000).
  repeat split; try (vm_compute; reflexivity).
  vm_compute. discriminate.
Qed.

Lemma tier_cases (e : Z) :
  (-4 <= e <= 4)%Z ->
  (e = -4 \/ e = -3 \/ e = -2 \/ e = -1 \/ e = 0
   \/ e = 1 \/ e = 2 \/ e = 3 \/ e = 4)%Z.
Proof. lia. Qed.

(** C4.  For each exponent [e] from -4 to 4, [formatSI(1000^e, 3, '')]
    shows the number 1 (written ["1"] by the general format) followed by a
    space and the symbol of the tier; the symbol for [e = -2] is the two
    bytes CE BC, the Greek letter mu in UTF-8, and not the letter [u]. *)
Theorem formatSI_power_of_1000 (e : Z) :
  (-4 <= e <= 4)%Z ->
  formatSI (Fin (Qpower 1000 e)) 3 spec_empty = Ok ("1 " ++ si_symbol e)
  /\ (exists rounded mantissa : Q,
        float_of_string (format_e (Fin (Qpower 1000 e)) 3) = Ok (Fin rounded)
        /\ py_int (baseThousand (Fin rounded)) = Ok e
        /\ dict_get prefixDict (format_plus_d e) = Some (si_symbol e)
        /\ shortenedDigits (Fin rounded) = Fin mantissa
        /\ mantissa == 1)
  /\ dict_get prefixDict "-2"
     = Some (String (ascii_of_nat 206) (String (ascii_of_nat 188) ""))
  /\ dict_get prefixDict "-2" <> Some "u".
Proof.
  intros H. apply tier_cases in H.
  repeat (destruct H as [-> | H]); subst;
    (split; [vm_compute; reflexivity|]);
    (split;
     [do 2 eexists;
      repeat (split; [vm_compute; reflexivity|]); reflexivity|]);
    (split; [vm_compute; reflexivity|]);
    vm_compute; discriminate.
Qed.

Lemma formatSI_power_of_1000_micro :
  (-4 <= -2 <= 4)%Z
  /\ formatSI (Fin (Qpower 1000 (-2))) 3 spec_empty = Ok "1 μ".
Proof.
  split; [lia|]. apply (formatSI_power_of_1000 (-2)). lia.
Defined.

(** C8.  The largest finite double is finite and not zero, but at
    precision 3 it is printed as [1.798e+308], which [float()] reads as
    [inf]; the floor of its logarithm is [inf] and [int()] raises
    [OverflowError]: [formatSI] returns no string there. *)
Theorem formatSI_DBL_MAX_raises :
  float_eq0 (Fin DBL_MAX) = false
  /\ format_e (Fin DBL_MAX) 3 = "1.798e+308"
  /\ float_of_string "1.798e+308" = Ok (Inf false)
  /\ baseThousand (Inf false) = Inf false
  /\ py_int (Inf false) = Raise OverflowError
  /\ formatSI (Fin DBL_MAX) 3 spec_empty = Raise OverflowError
  /\ ~ Py.returns (formatSI (Fin DBL_MAX) 3 spec_empty).
Proof.
  repeat split; try (vm_compute; reflexivity).
  intros [str H]. vm_compute in H. discriminate.
Qed.

(** ** The keys of the table *)

Lemma format_plus_d_inj (a b : Z) : format_plus_d a = format_plus_d b -> a = b.
Proof.
  unfold format_plus_d.
  destruct (Z.ltb_spec a 0), (Z.ltb_spec b 0); cbn [append];
    intros E; try discriminate; injection E as E;
    apply dec_inj in E; lia.
Qed.

Lemma key_mismatch (k e : Z) :
  k <> e -> (format_plus_d k =? format_plus_d e)%string = false.
Proof.
  intros N. apply String.eqb_neq. intros E. now apply format_plus_d_inj in E.
Qed.

(** The dictionary answers exactly the exponents from -4 to 4. *)
Lemma prefixDict_outside (e : Z) :
  (e < -4 \/ 4 < e)%Z -> dict_get prefixDict (format_plus_d e) = None.
Proof.
  intros H. unfold prefixDict. cbn [dict_get].
  change "-4" with (format_plus_d (-4)). change "-3" with (format_plus_d (-3)).
  change "-2" with (format_plus_d (-2)). change "-1" with (format_plus_d (-1)).
  change "+0" with (format_plus_d 0). change "+1" with (format_plus_d 1).
  change "+2" with (format_plus_d 2). change "+3" with (format_plus_d 3).
  change "+4" with (format_plus_d 4).
  rewrite !key_mismatch by lia. reflexivity.
Qed.

Lemma prefixDict_inside (e : Z) :
  (-4 <= e <= 4)%Z -> dict_get prefixDict (format_plus_d e) = Some (si_symbol e).
Proof.
  intros H. apply tier_cases in H.
  repeat (destruct H as [-> | H]); subst; reflexivity.
Qed.

(** ** Out of the table *)

(** C5.  When the exponent in base 1000 of the rounded number lies outside
    -4..4, the result is the rounded number itself, not rescaled, in the
    general format with the given precision and specification, followed by
    one space and nothing else. *)
Theorem formatSI_out_of_range
  (number : pyfloat) (precision : nat) (s : format_spec)
  (rounded : pyfloat) (e : Z) :
  float_eq0 number = false ->
  float_of_string (format_e number precision) = Ok rounded ->
  py_int (baseThousand rounded) = Ok e ->
  (e < -4 \/ 4 < e)%Z ->
  formatSI number precision s = Ok (format_g rounded s precision ++ " ").
Proof.
  intros Hnz Hr He Hout. unfold formatSI, prefixKey.
  rewrite Hnz, Hr. cbn [Py.bind]. rewrite He. cbn [Py.bind].
  now rewrite prefixDict_outside.
Qed.

Lemma formatSI_out_of_range_1e20 :
  float_eq0 (decimal 1 20) = false
  /\ float_of_string (format_e (decimal 1 20) 3)
     = Ok (Fin (inject_Z (10 ^ 20)))
  /\ py_int (baseThousand (Fin (inject_Z (10 ^ 20)))) = Ok 6%Z
  /\ formatSI (decimal 1 20) 3 spec_empty = Ok "1e+20 ".
Proof.
  assert (H1 : float_eq0 (decimal 1 20) = false) by reflexivity.
  assert (H2 : float_of_string (format_e (decimal 1 20) 3)
               = Ok (Fin (inject_Z (10 ^ 20))))
    by (vm_compute; reflexivity).
  assert (H3 : py_int (baseThousand (Fin (inject_Z (10 ^ 20)))) = Ok 6%Z)
    by (vm_compute; reflexivity).
  repeat (split; [assumption|]).
  apply (formatSI_out_of_range (decimal 1 20) 3 spec_empty
           (Fin (inject_Z (10 ^ 20))) 6 H1 H2 H3).
  lia.
Defined.

(** ** Negative numbers *)

Lemma Qltb_true (a b : Q) : a < b -> Qltb a b = true.
Proof.
  intros H. unfold Qltb. destruct (Qle_bool b a) eqn:E; [|reflexivity].
  apply Qle_bool_iff in E. exfalso. apply (Qlt_not_le _ _ H E).
Qed.

Lemma Qltb_false (a b : Q) : b <= a -> Qltb a b = false.
Proof.
  intros H. unfold Qltb. apply Qle_bool_iff in H. now rewrite H.
Qed.

Lemma Qabs_opp_eq (q : Q) : Qabs (- q) = Qabs q.
Proof.
  destruct q as [n d]. unfold Qabs, Qopp. cbn [Qnum Qden].
  now rewrite Z.abs_opp.
Qed.

Lemma Qabs_div_opp_eq (a b : Q) : Qabs (- a / b) = Qabs (a / b).
Proof.
  destruct a as [n d]. unfold Qdiv, Qmult, Qopp, Qabs. cbn [Qnum Qden].
  now rewrite Z.mul_opp_l, Z.abs_opp.
Qed.

Lemma float_abs_neg (x : pyfloat) : float_abs (float_neg x) = float_abs x.
Proof.
  destruct x as [q|b|]; cbn [float_abs float_neg]; [|reflexivity..].
  now rewrite Qabs_opp_eq.
Qed.

Lemma digits_str_head (m : Z) (n : nat) :
  exists c rest, digits_str m (S n) = String c rest /\ In c digit_chars.
Proof.
  unfold digits_str.
  pose proof (fixed_digits_length (S n) m) as L.
  pose proof (fixed_digits_all (S n) m) as A.
  destruct (fixed_digits (S n) m) as [|c rest]; [discriminate|].
  exists c, rest. split; [reflexivity|].
  cbn in A. apply andb_prop in A as [A _]. now apply is_digit_in.
Qed.

(** A string that starts with a digit carries no sign. *)
Lemma signed_digit (c : ascii) (rest : string) :
  In c digit_chars -> signed (String c rest) = (false, String c rest).
Proof.
  intros H. cbn in H.
  repeat (destruct H as [<- | H]; [reflexivity|]). contradiction.
Qed.

Lemma format_e_unsigned (q : Q) (precision : nat) :
  0 <= q ->
  signed (format_e (Fin q) precision) = (false, format_e (Fin q) precision).
Proof.
  intros H. unfold format_e.
  destruct (sig_digits (Qabs q) (S precision)) as [m x].
  rewrite (Qltb_false _ _ H). cbn [sign_str append].
  destruct (digits_str_head m precision) as (c & rest & -> & Hc).
  destruct rest; cbn [point_after_first append]; now apply signed_digit.
Qed.

Lemma format_e_neg (q : Q) (precision : nat) :
  0 < q ->
  format_e (Fin (- q)) precision = String "-" (format_e (Fin q) precision).
Proof.
  intros H. unfold format_e. rewrite Qabs_opp_eq.
  destruct (sig_digits (Qabs q) (S precision)) as [m x].
  rewrite Qltb_true, Qltb_false; [reflexivity| |].
  - now apply Qlt_le_weak.
  - rewrite <- (Qopp_involutive 0). now apply Qopp_lt_compat.
Qed.

Lemma float_of_string_minus (body : string) :
  signed body = (false, body) ->
  float_of_string (String "-" body)
  = Py.map float_neg (float_of_string body).
Proof.
  intros H. unfold float_of_string. rewrite H. cbn [signed].
  destruct (body =? "inf")%string; [reflexivity|].
  destruct (body =? "nan")%string; [reflexivity|].
  now destruct (parse_decimal body).
Qed.

Lemma digits_value_from_nonneg (s : string) (acc v : Z) :
  (0 <= acc)%Z -> digits_value_from acc s = Some v -> (0 <= v)%Z.
Proof.
  revert acc. induction s as [|c s IH]; intros acc Ha;
    cbn [digits_value_from].
  - now intros [= <-].
  - destruct (digit_of_char c) as [d|] eqn:E; [|discriminate].
    apply digit_of_char_inv in E as [R _]. apply IH. lia.
Qed.

Lemma parse_decimal_nonneg (s : string) (v : Q) :
  parse_decimal s = Some v -> 0 <= v.
Proof.
  unfold parse_decimal.
  destruct (split_on is_e s) as [mant ex].
  destruct (split_on is_point mant) as [ip fo].
  destruct (ip ++ match fo with Some f => f | None => "" end) as [|c ds];
    [discriminate|].
  destruct (digits_value (String c ds)) as [m|] eqn:D; [|discriminate].
  destruct (parse_exponent ex) as [e|]; [|discriminate].
  intros [= <-]. apply Qmult_le_0_compat.
  - apply digits_value_from_nonneg in D; [|lia].
    unfold Qle, inject_Z. cbn. lia.
  - apply Qpower_0_le. discriminate.
Qed.

Lemma float_of_string_unsigned (s : string) (x : pyfloat) :
  signed s = (false, s) -> float_of_string s = Ok x -> nonneg_float x.
Proof.
  intros H. unfold float_of_string. rewrite H.
  destruct (s =? "inf")%string; [intros [= <-]; constructor|].
  destruct (s =? "nan")%string; [intros [= <-]; constructor|].
  destruct (parse_decimal s) as [q|] eqn:P; [|discriminate].
  apply parse_decimal_nonneg in P. intros [= <-]. unfold to_double.
  destruct (Qle_bool overflow_threshold (Qabs q)).
  - rewrite (Qltb_false _ _ P). constructor.
  - now constructor.
Qed.

Lemma pad_spec_empty (sgn body : string) : pad spec_empty sgn body = sgn ++ body.
Proof. reflexivity. Qed.

Lemma format_g_sign (u v : Q) (precision : nat) :
  Qabs u = Qabs v -> u < 0 -> 0 <= v ->
  format_g (Fin u) spec_empty precision
  = String "-" (format_g (Fin v) spec_empty precision).
Proof.
  intros E Hu Hv. unfold format_g. rewrite !pad_spec_empty, E.
  now rewrite (Qltb_true _ _ Hu), (Qltb_false _ _ Hv).
Qed.

Lemma Qopp_neg (a : Q) : 0 < a -> - a < 0.
Proof.
  intros H. rewrite <- (Qopp_involutive 0). now apply Qopp_lt_compat.
Qed.

Lemma formatSI_render (number : pyfloat) (precision : nat) (s : format_spec) :
  float_eq0 number = false ->
  formatSI number precision s
  = (rounded <- float_of_string (format_e number precision) ;;
     render rounded precision s).
Proof. intros H. unfold formatSI, render. now rewrite H. Qed.

Lemma render_neg (r : pyfloat) (precision : nat) :
  nonneg_float r ->
  render (float_neg r) precision spec_empty
  = Py.map (String "-") (render r precision spec_empty).
Proof.
  intros H. unfold render, prefixKey, shortenedDigits, baseThousand.
  rewrite float_abs_neg.
  destruct H as [a Ha| |]; [|reflexivity..].
  cbn [float_abs float_neg floor_log].
  destruct (Qabs a ?= 0)%Q eqn:C; [reflexivity|reflexivity|].
  apply Qgt_alt in C. rewrite (Qabs_pos _ Ha) in C.
  cbn [py_int Py.bind float_pow].
  set (pw := Qpower 1000 (Qfloor (inject_Z (ilog 1000 (Qabs a))))).
  assert (Hpw : 0 < pw) by (apply Qpower_0_lt; reflexivity).
  destruct (dict_get prefixDict _) as [prefix|]; unfold Py.map; cbn [Py.bind].
  - cbn [float_div].
    destruct (Qeq_bool pw 0) eqn:Z.
    { apply Qeq_bool_iff in Z. rewrite Z in Hpw. discriminate. }
    rewrite (format_g_sign (- a / pw) (a / pw)); [reflexivity|..].
    + apply Qabs_div_opp_eq.
    + apply Qlt_shift_div_r; [exact Hpw|]. rewrite Qmult_0_l. now apply Qopp_neg.
    + apply Qle_shift_div_l; [exact Hpw|]. rewrite Qmult_0_l. now apply Qlt_le_weak.
  - rewrite (format_g_sign (- a) a); [reflexivity|..].
    + apply Qabs_opp_eq.
    + now apply Qopp_neg.
    + exact Ha.
Qed.

(** C7.  For a positive [x], [formatSI(-x, p, '')] is [formatSI(x, p, '')]
    with a minus sign in front: the same digits, the same prefix (the
    exponent is computed from the absolute value), and the same exception
    when there is one. *)
Theorem formatSI_negative (x : Q) (precision : nat) :
  0 < x ->
  formatSI (Fin (- x)) precision spec_empty
  = Py.map (String "-") (formatSI (Fin x) precision spec_empty).
Proof.
  intros H.
  assert (Hx : float_eq0 (Fin x) = false).
  { cbn [float_eq0]. destruct (Qeq_bool x 0) eqn:E; [|reflexivity].
    apply Qeq_bool_iff in E. rewrite E in H. discriminate. }
  assert (Hn : float_eq0 (Fin (- x)) = false).
  { cbn [float_eq0]. destruct (Qeq_bool (- x) 0) eqn:E; [|reflexivity].
    apply Qeq_bool_iff in E. apply Qopp_neg in H. rewrite E in H.
    discriminate. }
  rewrite !formatSI_render by assumption.
  rewrite (format_e_neg _ _ H).
  pose proof (format_e_unsigned x precision (Qlt_le_weak _ _ H)) as U.
  rewrite (float_of_string_minus _ U).
  destruct (float_of_string (format_e (Fin x) precision)) as [r|e] eqn:R;
    [|reflexivity].
  unfold Py.map at 1. cbn [Py.bind].
  apply render_neg. exact (float_of_string_unsigned _ _ U R).
Qed.

Lemma formatSI_negative_1234 :
  0 < 1234 # 1
  /\ formatSI (Fin (- (1234 # 1))) 3 spec_empty = Ok "-1.23 k"
  /\ formatSI (Fin (1234 # 1)) 3 spec_empty = Ok "1.23 k".
Proof.
  split; [reflexivity|]. split.
  - rewrite (formatSI_negative (1234 # 1) 3); [|reflexivity].
    vm_compute. reflexivity.
  - vm_compute. reflexivity.
Defined.

(* ================================================================== *)
(** * The scaled number *)

Lemma Qabs_pos_lt (a : Q) : ~ a == 0 -> 0 < Qabs a.
Proof.
  intros H. destruct (Qle_lt_or_eq _ _ (Qabs_nonneg a)) as [L|E];
    [exact L|].
  exfalso. apply H. destruct a as [n d].
  unfold Qeq, Qabs in *. cbn [Qnum Qden] in *. lia.
Qed.

Lemma baseThousand_finite (a : Q) :
  ~ a == 0 -> baseThousand (Fin a) = Fin (inject_Z (ilog 1000 (Qabs a))).
Proof.
  intros H. unfold baseThousand. cbn [float_abs floor_log].
  apply Qabs_pos_lt in H. apply Qgt_alt in H. now rewrite H.
Qed.

Lemma Qtrunc_Z (z : Z) : Qtrunc (inject_Z z) = z.
Proof.
  unfold Qtrunc. destruct (Qltb (inject_Z z) 0);
    [apply Qceiling_Z | apply Qfloor_Z].
Qed.

Lemma prefixKey_finite (a : Q) :
  ~ a == 0 ->
  py_int (baseThousand (Fin a)) = Ok (ilog 1000 (Qabs a))
  /\ prefixKey (Fin a) = Ok (format_plus_d (ilog 1000 (Qabs a))).
Proof.
  intros H. unfold prefixKey. rewrite (baseThousand_finite a H).
  cbn [py_int Py.bind]. now rewrite Qtrunc_Z.
Qed.

(** The number shown under a prefix: the rounded number over the power
    of 1000 just below its magnitude, between 1 and 1000 in magnitude. *)
Lemma shortenedDigits_bound (a : Q) :
  ~ a == 0 ->
  exists mantissa : Q,
    shortenedDigits (Fin a) = Fin mantissa
    /\ mantissa == a / Qpower 1000 (ilog 1000 (Qabs a))
    /\ 1 <= Qabs mantissa /\ Qabs mantissa < 1000.
Proof.
  intros H. unfold shortenedDigits. rewrite (baseThousand_finite a H).
  cbn [float_pow]. rewrite Qfloor_Z.
  set (e := ilog 1000 (Qabs a)).
  destruct (ilog_spec 1000 (Qabs a)) as [Hlo Hhi];
    [lia | now apply Qabs_pos_lt |]. fold e in Hlo, Hhi.
  change (inject_Z 1000) with (1000 : Q) in Hlo, Hhi.
  assert (Hpw : 0 < Qpower 1000 e) by (apply Qpower_0_lt; reflexivity).
  cbn [float_div].
  destruct (Qeq_bool (Qpower 1000 e) 0) eqn:Z.
  { apply Qeq_bool_iff in Z. rewrite Z in Hpw. discriminate. }
  exists (a / Qpower 1000 e). split; [reflexivity|]. split; [reflexivity|].
  assert (E : Qabs (a / Qpower 1000 e) == Qabs a / Qpower 1000 e).
  { unfold Qdiv. rewrite Qabs_Qmult, Qabs_Qinv.
    now rewrite (Qabs_pos (Qpower 1000 e)) by now apply Qlt_le_weak. }
  rewrite E. split.
  - apply Qle_shift_div_l; [exact Hpw|]. now rewrite Qmult_1_l.
  - apply Qlt_shift_div_r; [exact Hpw|].
    rewrite Qpower_plus in Hhi by discriminate.
    rewrite Qmult_comm. exact Hhi.
Qed.

(** Within the table: when the exponent in base 1000 of the rounded number
    is one of -4..4, the result shows the rounded number divided by that
    power of 1000, a value of magnitude in [[1, 1000)], then a space and
    the symbol of the tier. *)
Lemma formatSI_in_table
  (number : pyfloat) (precision : nat) (s : format_spec) (rounded : Q) :
  float_eq0 number = false ->
  float_of_string (format_e number precision) = Ok (Fin rounded) ->
  ~ rounded == 0 ->
  (-4 <= ilog 1000 (Qabs rounded) <= 4)%Z ->
  exists mantissa : Q,
    shortenedDigits (Fin rounded) = Fin mantissa
    /\ mantissa == rounded / Qpower 1000 (ilog 1000 (Qabs rounded))
    /\ 1 <= Qabs mantissa /\ Qabs mantissa < 1000
    /\ formatSI number precision s
       = Ok (format_g (Fin mantissa) s precision ++ " "
               ++ si_symbol (ilog 1000 (Qabs rounded))).
Proof.
  intros Hnz Hr Hr0 He.
  destruct (shortenedDigits_bound rounded Hr0) as (m & Hm & Hv & Hlo & Hhi).
  exists m. repeat (split; [assumption|]).
  rewrite (formatSI_render _ _ _ Hnz), Hr. cbn [Py.bind]. unfold render.
  destruct (prefixKey_finite rounded Hr0) as [_ ->]. cbn [Py.bind].
  now rewrite (prefixDict_inside _ He), Hm.
Qed.

(* ================================================================== *)
(** * The rounding step: printing and reading back *)

Lemma split_on_stop (p : ascii -> bool) (s : string) (c : ascii) (t : string) :
  none_of p s = true -> p c = true ->
  split_on p (s ++ String c t) = (s, Some t).
Proof.
  intros Hs Hc. induction s as [|a s IH]; cbn [append split_on].
  - now rewrite Hc.
  - cbn in Hs. apply andb_prop in Hs as [Ha Hs].
    apply negb_true_iff in Ha. rewrite Ha. now rewrite (IH Hs).
Qed.

Lemma split_on_none (p : ascii -> bool) (s : string) :
  none_of p s = true -> split_on p s = (s, None).
Proof.
  intros Hs. induction s as [|a s IH]; cbn [split_on]; [reflexivity|].
  cbn in Hs. apply andb_prop in Hs as [Ha Hs].
  apply negb_true_iff in Ha. rewrite Ha. now rewrite (IH Hs).
Qed.

Lemma digit_plain (c : ascii) :
  In c digit_chars ->
  is_e c = false /\ is_point c = false
  /\ (forall rest, (String c rest =? "inf")%string = false)
  /\ (forall rest, (String c rest =? "nan")%string = false).
Proof.
  intros H. cbn in H.
  repeat (destruct H as [<- | H]; [repeat split|]); contradiction.
Qed.

Lemma all_digits_none (s : string) :
  all_digits s = true -> none_of is_e s = true /\ none_of is_point s = true.
Proof.
  induction s as [|c s IH]; cbn; [now split|].
  intros H. apply andb_prop in H as [Hc Hs].
  destruct (IH Hs) as [-> ->].
  destruct (digit_plain c (is_digit_in c Hc)) as (-> & -> & _). now split.
Qed.

(** The exponent field reads back as the exponent. *)
Lemma parse_exponent_exp_str (x : Z) : parse_exponent (Some (exp_str x)) = Some x.
Proof.
  unfold parse_exponent, exp_str.
  set (n := Nat.max 2 (ndigits (Z.abs x))).
  assert (V : digits_value (fixed_digits n (Z.abs x)) = Some (Z.abs x)).
  { unfold digits_value. rewrite digits_value_fixed. f_equal.
    rewrite Z.mod_small; [lia|]. split; [lia|].
    apply Z.lt_le_trans with (10 ^ Z.of_nat (ndigits (Z.abs x)))%Z.
    - apply ndigits_bound. lia.
    - apply Z.pow_le_mono_r; lia. }
  assert (L : String.length (fixed_digits n (Z.abs x)) = n)
    by apply fixed_digits_length.
  assert (N : (2 <= n)%nat) by (unfold n; lia).
  remember (fixed_digits n (Z.abs x)) as ds eqn:E. clear E. clearbody n.
  destruct ds as [|c ds]; [cbn [String.length] in L; lia|].
  destruct (Z.ltb_spec x 0); cbn [append signed]; rewrite V;
    cbn [option_map]; f_equal; lia.
Qed.

(** Reading a printed mantissa and exponent: [digits] holds [S p] digits,
    shown with the point after the first. *)
Lemma parse_decimal_scientific (p : nat) (m x : Z) :
  (0 <= m < 10 ^ Z.of_nat (S p))%Z ->
  parse_decimal (point_after_first (digits_str m (S p)) ++ "e" ++ exp_str x)
  = Some (inject_Z m * Qpower 10 (x - Z.of_nat p)).
Proof.
  intros Hm. unfold digits_str.
  pose proof (fixed_digits_length (S p) m) as L.
  pose proof (fixed_digits_all (S p) m) as A.
  assert (V : digits_value (fixed_digits (S p) m) = Some m).
  { unfold digits_value. rewrite digits_value_fixed. f_equal.
    rewrite Z.mod_small; lia. }
  remember (fixed_digits (S p) m) as ds eqn:E. clear E.
  destruct ds as [|c rest]; [discriminate|].
  cbn in L. injection L as L.
  cbn [all_digits] in A. apply andb_prop in A as [Ac Ar].
  destruct (digit_plain c (is_digit_in c Ac)) as (Ec & Pc & _).
  destruct (all_digits_none rest Ar) as [Er Pr].
  unfold parse_decimal. change ("e" ++ exp_str x) with (String "e" (exp_str x)).
  destruct rest as [|c' rest'].
  - cbn [point_after_first].
    rewrite split_on_stop; [|cbn; now rewrite Ec|reflexivity].
    rewrite split_on_none by (cbn; now rewrite Pc).
    cbn [append]. rewrite V, parse_exponent_exp_str.
    cbn [String.length] in *. subst p. reflexivity.
  - cbn [point_after_first].
    rewrite split_on_stop; [|cbn [none_of]; rewrite Ec; cbn|reflexivity].
    2:{ change (none_of is_e ("." ++ String c' rest'))
          with (none_of is_e (String c' rest')). exact Er. }
    cbn [append split_on]. rewrite Pc.
    change (is_point ".") with true. cbv iota beta. cbn [append].
    rewrite V, parse_exponent_exp_str. now rewrite L.
Qed.

Lemma round_half_even_bounds (q : Q) (A B : Z) :
  inject_Z A <= q -> q < inject_Z B -> (A <= round_half_even q <= B)%Z.
Proof.
  intros HA HB. unfold round_half_even.
  assert (Hlo : (A <= Qfloor q)%Z).
  { rewrite <- (Qfloor_Z A). now apply Qfloor_resp_le. }
  assert (Hhi : (Qfloor q < B)%Z).
  { rewrite Zlt_Qlt. apply Qle_lt_trans with q; [apply Qfloor_le|exact HB]. }
  destruct (q - inject_Z (Qfloor q) ?= 1 # 2)%Q;
    [destruct (Z.even (Qfloor q))|..]; lia.
Qed.

Lemma pow10_shift (a b : Z) :
  (0 <= a)%Z -> inject_Z (10 ^ a) * Qpower 10 b == Qpower 10 (a + b).
Proof.
  intros H. rewrite Zpower_Qpower by exact H.
  change (inject_Z 10) with (10 : Q).
  now rewrite Qpower_plus by discriminate.
Qed.

Lemma pow10_pos (k : Z) : 0 < Qpower 10 k.
Proof. apply Qpower_0_lt. reflexivity. Qed.

(** The decimal rounding of a positive number: a mantissa of exactly
    [S p] digits, and a value between the powers of ten around [q]. *)
Lemma sig_digits_spec (q : Q) (p : nat) :
  0 < q ->
  forall m x : Z,
    sig_digits q (S p) = (m, x) ->
    (10 ^ Z.of_nat p <= m < 10 ^ Z.of_nat (S p))%Z
    /\ Qpower 10 (ilog 10 q) <= inject_Z m * Qpower 10 (x - Z.of_nat p)
    /\ inject_Z m * Qpower 10 (x - Z.of_nat p) <= Qpower 10 (ilog 10 q + 1).
Proof.
  intros Hq m x. unfold sig_digits.
  destruct (Qeq_bool q 0) eqn:Z0.
  { apply Qeq_bool_iff in Z0. rewrite Z0 in Hq. discriminate. }
  clear Z0. set (x0 := ilog 10 q).
  destruct (ilog_spec 10 q) as [Hlo Hhi]; [lia|exact Hq|].
  fold x0 in Hlo, Hhi. change (inject_Z 10) with (10 : Q) in Hlo, Hhi.
  replace (Z.of_nat (S p) - 1 - x0)%Z with (Z.of_nat p - x0)%Z by lia.
  set (s := q * Qpower 10 (Z.of_nat p - x0)).
  assert (Hp : (0 <= Z.of_nat p)%Z) by lia.
  assert (HSp : (0 <= Z.of_nat (S p))%Z) by lia.
  assert (S1 : inject_Z (10 ^ Z.of_nat p) <= s).
  { rewrite <- (Qmult_1_r (inject_Z _)). change 1 with (Qpower 10 0).
    rewrite pow10_shift by exact Hp.
    replace (Z.of_nat p + 0)%Z with (x0 + (Z.of_nat p - x0))%Z by lia.
    rewrite Qpower_plus by discriminate.
    apply Qmult_le_compat_r; [exact Hlo|]. apply Qlt_le_weak, pow10_pos. }
  assert (S2 : s < inject_Z (10 ^ Z.of_nat (S p))).
  { rewrite <- (Qmult_1_r (inject_Z _)). change 1 with (Qpower 10 0).
    rewrite pow10_shift by exact HSp.
    replace (Z.of_nat (S p) + 0)%Z with (x0 + 1 + (Z.of_nat p - x0))%Z by lia.
    rewrite Qpower_plus by discriminate.
    apply Qmult_lt_compat_r; [apply pow10_pos|exact Hhi]. }
  pose proof (round_half_even_bounds s _ _ S1 S2) as [M1 M2].
  assert (Mono : (10 ^ Z.of_nat p < 10 ^ Z.of_nat (S p))%Z)
    by (apply Z.pow_lt_mono_r; lia).
  replace (Z.of_nat (S p) - 1)%Z with (Z.of_nat p) by lia.
  destruct (Z.eqb_spec (round_half_even s) (10 ^ Z.of_nat (S p))) as [E|N];
    intros [= <- <-].
  - split; [lia|].
    rewrite pow10_shift by exact Hp.
    replace (Z.of_nat p + (x0 + 1 - Z.of_nat p))%Z with (x0 + 1)%Z by lia.
    split; [|apply Qle_refl].
    apply Qpower_le_compat_l; [lia|discriminate].
  - split; [lia|]. split.
    + apply Qle_trans
        with (inject_Z (10 ^ Z.of_nat p) * Qpower 10 (x0 - Z.of_nat p)).
      * rewrite pow10_shift by exact Hp.
        replace (Z.of_nat p + (x0 - Z.of_nat p))%Z with x0 by lia.
        apply Qle_refl.
      * apply Qmult_le_compat_r; [|apply Qlt_le_weak, pow10_pos].
        now rewrite <- Zle_Qle.
    + apply Qle_trans
        with (inject_Z (10 ^ Z.of_nat (S p)) * Qpower 10 (x0 - Z.of_nat p)).
      * apply Qmult_le_compat_r; [|apply Qlt_le_weak, pow10_pos].
        now rewrite <- Zle_Qle.
      * rewrite pow10_shift by exact HSp.
        replace (Z.of_nat (S p) + (x0 - Z.of_nat p))%Z with (x0 + 1)%Z by lia.
        apply Qle_refl.
Qed.

Lemma Qabs_pos_eq (q : Q) : 0 <= q -> Qabs q = q.
Proof.
  destruct q as [n d]. unfold Qle, Qabs. cbn [Qnum Qden]. intros H.
  f_equal. apply Z.abs_eq. lia.
Qed.

Lemma Qabs_neg_eq (q : Q) : q <= 0 -> Qabs q = - q.
Proof.
  destruct q as [n d]. unfold Qle, Qabs, Qopp. cbn [Qnum Qden]. intros H.
  f_equal. apply Z.abs_neq. lia.
Qed.

Lemma Qopp_opp_eq (q : Q) : - - q = q.
Proof.
  destruct q as [n d]. unfold Qopp. cbn [Qnum Qden].
  now rewrite Z.opp_involutive.
Qed.

Lemma float_of_string_digit (c : ascii) (t : string) :
  In c digit_chars ->
  float_of_string (String c t)
  = match parse_decimal (String c t) with
    | Some q => Ok (to_double q)
    | None => Raise ValueError
    end.
Proof.
  intros H. unfold float_of_string. rewrite (signed_digit c t H).
  destruct (digit_plain c H) as (_ & _ & -> & ->). reflexivity.
Qed.

(** The rounding step on a positive number: what is printed reads back as
    the decimal rounding, sent into the range of the doubles. *)
Lemma rounding_step_pos (q : Q) (p : nat) (m x : Z) :
  0 < q -> sig_digits q (S p) = (m, x) ->
  float_of_string (format_e (Fin q) p)
  = Ok (to_double (inject_Z m * Qpower 10 (x - Z.of_nat p))).
Proof.
  intros Hq E.
  destruct (sig_digits_spec q p Hq m x E) as [Hm _].
  unfold format_e. rewrite (Qabs_pos_eq q (Qlt_le_weak _ _ Hq)), E.
  rewrite (Qltb_false q 0 (Qlt_le_weak _ _ Hq)). cbn [sign_str append].
  pose proof (parse_decimal_scientific p m x ltac:(lia)) as P.
  change ("e" ++ exp_str x) with (String "e" (exp_str x)) in P.
  destruct (digits_str_head m p) as (c & rest & D & Hc).
  rewrite D in *.
  assert (F : exists t, point_after_first (String c rest)
                          ++ String "e" (exp_str x)
                        = String c t)
    by (destruct rest; cbn; eexists; reflexivity).
  destruct F as [t F]. rewrite F in *.
  now rewrite (float_of_string_digit c t Hc), P.
Qed.

Lemma rounding_step_neg (q : Q) (p : nat) (m x : Z) :
  0 < q -> sig_digits q (S p) = (m, x) ->
  float_of_string (format_e (Fin (- q)) p)
  = Ok (float_neg (to_double (inject_Z m * Qpower 10 (x - Z.of_nat p)))).
Proof.
  intros Hq E. rewrite (format_e_neg q p Hq).
  rewrite float_of_string_minus
    by (apply format_e_unsigned; now apply Qlt_le_weak).
  now rewrite (rounding_step_pos q p m x Hq E).
Qed.

Lemma ilog_between (b : Z) (q : Q) (lo hi : Z) :
  (2 <= b)%Z -> 0 < q ->
  Qpower (inject_Z b) lo <= q -> q < Qpower (inject_Z b) hi ->
  (lo <= ilog b q < hi)%Z.
Proof.
  intros Hb Hq Hlo Hhi.
  destruct (ilog_spec b q Hb Hq) as [L H].
  assert (B : 1 < inject_Z b) by (unfold Qlt; cbn; lia).
  split.
  - apply Z.lt_succ_r. rewrite <- Z.add_1_r.
    apply (Qpower_lt_compat_l_inv (inject_Z b)); [|exact B].
    now apply Qle_lt_trans with q.
  - apply (Qpower_lt_compat_l_inv (inject_Z b)); [|exact B].
    now apply Qle_lt_trans with q.
Qed.


Lemma signed_value_nonzero (q v : Q) :
  0 < v -> ~ (if Qltb q 0 then - v else v) == 0.
Proof.
  intros Hv Z. destruct (Qltb q 0).
  - apply (Qlt_irrefl 0). rewrite <- (Qopp_involutive v), Z in Hv. exact Hv.
  - rewrite Z in Hv. discriminate.
Qed.

Lemma signed_value_abs (q v : Q) :
  0 < v -> Qabs (if Qltb q 0 then - v else v) = v.
Proof.
  intros Hv. destruct (Qltb q 0).
  - rewrite Qabs_opp_eq. apply Qabs_pos_eq. now apply Qlt_le_weak.
  - apply Qabs_pos_eq. now apply Qlt_le_weak.
Qed.

Lemma float_eq0_false (q : Q) : 0 < Qabs q -> float_eq0 (Fin q) = false.
Proof.
  intros Ha. cbn [float_eq0]. destruct (Qeq_bool q 0) eqn:B; [|reflexivity].
  apply Qeq_bool_iff in B. rewrite B in Ha. discriminate.
Qed.






(* ================================================================== *)
(** * Facts about [Curve] *)

Section CurveFacts.

Variable autoscale : list artist -> (Q * Q) * (Q * Q) -> (Q * Q) * (Q * Q).
Variable builtins : list string.
Variable func : Q -> Q.

Lemma Return_is_no_global : existsb (String.eqb "Return") module_globals = false.
Proof. reflexivity. Qed.

Lemma load_Return (ax : Axes) :
  ~ In "Return" builtins ->
  load_global builtins "Return" ax = (Raise NameError, ax).
Proof.
  intros H. unfold load_global.
  rewrite existsb_app, Return_is_no_global. cbn [orb].
  destruct (existsb (String.eqb "Return") builtins) eqn:E; [|reflexivity].
  apply existsb_exists in E. destruct E as (n & Hin & Heq).
  apply String.eqb_eq in Heq. now subst n.
Qed.

(** C9.  [plot_line] has two statements that evaluate the name [Return],
    one run when [pos] is [None] and one when [label] is [None]; the name is
    bound neither in the module nor among the builtins, so a call with
    [pos=None] or [label=None] draws the line and then ends with a
    [NameError] instead of returning: the axes hold the line and no
    annotation. *)
Theorem plot_line_Return (ax : Axes) (min_ max_ : Q)
  (pos : option Q) (label : option string) :
  ~ In "Return" builtins ->
  pos = None \/ label = None ->
  plot_line autoscale builtins func min_ max_ pos label ax
  = (Raise NameError,
     snd (ax_plot autoscale (min_, max_) (func min_, func max_) ax)).
Proof.
  intros Hb H. unfold plot_line, then_.
  cbn [ax_plot add_autoscaled snd].
  destruct pos as [p|].
  - destruct H as [H|H]; [discriminate|]. subst label.
    cbn [ret along]. now rewrite load_Return.
  - now rewrite load_Return.
Qed.

(** [draw_connecting_hline] leaves the y-limits of the axes as they were,
    whatever drawing the vertical line did to them and however the call
    ends. *)
Lemma draw_connecting_hline_ylim (ax : Axes) (x : Q)
  (label : option string) (pos : option Q) :
  ylim (snd (draw_connecting_hline autoscale func x label pos ax)) = ylim ax.
Proof.
  unfold draw_connecting_hline, then_. cbn [ax_get_ylim].
  destruct (ylim ax) as [min_y max_y] eqn:E.
  cbn [ax_vlines add_autoscaled ax_set_ylim].
  destruct label as [l|]; [|reflexivity].
  destruct pos as [p|]; reflexivity.
Qed.

(** [draw_connecting_vline] leaves the x-limits as they were. *)
Lemma draw_connecting_vline_xlim (ax : Axes) (x : Q)
  (label : option string) (pos : option Q) :
  xlim (snd (draw_connecting_vline autoscale func x label pos ax)) = xlim ax.
Proof.
  unfold draw_connecting_vline, then_. cbn [ax_get_xlim].
  destruct (xlim ax) as [min_x max_x] eqn:E.
  cbn [ax_hlines add_autoscaled ax_set_xlim].
  destruct label as [l|]; reflexivity.
Qed.

(** C10.  After [draw_connecting_hline] the y-limits of the axes are what
    they were before the call: they are read with [get_ylim] first and put
    back with [set_ylim] once the vertical line is added.  In the same
    way [draw_connecting_vline] leaves the x-limits unchanged. *)
Theorem draw_connecting_lines_restore_limits (ax : Axes) (x : Q)
  (label : option string) (pos : option Q) :
  ylim (snd (draw_connecting_hline autoscale func x label pos ax)) = ylim ax
  /\ xlim (snd (draw_connecting_vline autoscale func x label pos ax)) = xlim ax.
Proof.
  split.
  - apply draw_connecting_hline_ylim.
  - apply draw_connecting_vline_xlim.
Qed.

End CurveFacts.

Lemma plot_line_Return_default_label :
  ~ In "Return" ["len"; "print"; "range"]
  /\ fst (plot_line (fun _ lims => lims) ["len"; "print"; "range"]
            (fun x => x * x) (-1) 1 (Some (1 # 2)) None blank_axes)
     = Raise NameError.
Proof.
  assert (H : ~ In "Return" ["len"; "print"; "range"]).
  { cbn. intros [E|[E|[E|[]]]]; discriminate. }
  split; [exact H|].
  rewrite (plot_line_Return (fun _ lims => lims) ["len"; "print"; "range"]
             (fun x => x * x) blank_axes (-1) 1 (Some (1 # 2)) None H);
    [reflexivity|].
  right. reflexivity.
Defined.

(* ================================================================== *)
(** * Further facts about [formatSI] *)

(** ** The result depends on the value of the input only *)

Lemma round_half_even_Qeq (q q' : Q) :
  q == q' -> round_half_even q = round_half_even q'.
Proof.
  intros H. unfold round_half_even. rewrite <- (Qfloor_comp _ _ H).
  assert (C : (q - inject_Z (Qfloor q) ?= 1 # 2)%Q
              = (q' - inject_Z (Qfloor q) ?= 1 # 2)%Q)
    by (apply Qcompare_comp;
        [apply Qminus_comp; [exact H|reflexivity]|reflexivity]).
  now rewrite C.
Qed.

Lemma ilog_unique (b : Z) (q : Q) (e : Z) :
  (2 <= b)%Z -> 0 < q ->
  Qpower (inject_Z b) e <= q -> q < Qpower (inject_Z b) (e + 1) ->
  ilog b q = e.
Proof.
  intros Hb Hq Hlo Hhi.
  pose proof (ilog_between b q e (e + 1) Hb Hq Hlo Hhi). lia.
Qed.

Lemma ilog_Qeq (b : Z) (q q' : Q) :
  (2 <= b)%Z -> 0 < q -> q == q' -> ilog b q = ilog b q'.
Proof.
  intros Hb Hq H. symmetry.
  assert (Hq' : 0 < q') by now rewrite <- H.
  destruct (ilog_spec b q Hb Hq) as [Hlo Hhi].
  apply ilog_unique; try assumption; now rewrite <- H.
Qed.

Lemma sig_digits_Qeq (q q' : Q) (n : nat) :
  0 <= q -> q == q' -> sig_digits q n = sig_digits q' n.
Proof.
  intros Hq H. unfold sig_digits. rewrite <- (Qeqb_comp _ _ H 0 0 (Qeq_refl 0)).
  destruct (Qeq_bool q 0) eqn:Z0; [reflexivity|].
  assert (P : 0 < q).
  { apply Qeq_bool_neq in Z0. destruct (Qle_lt_or_eq _ _ Hq) as [L|E];
      [exact L|]. exfalso. apply Z0. now symmetry. }
  rewrite <- (ilog_Qeq 10 q q' ltac:(lia) P H).
  rewrite (round_half_even_Qeq
             (q * Qpower 10 (Z.of_nat n - 1 - ilog 10 q))
             (q' * Qpower 10 (Z.of_nat n - 1 - ilog 10 q)))
    by (apply Qmult_comp; [exact H|reflexivity]).
  reflexivity.
Qed.

Lemma Qltb_Qeq (q q' : Q) : q == q' -> Qltb q 0 = Qltb q' 0.
Proof.
  intros H. unfold Qltb. now rewrite (Qleb_comp 0 0 (Qeq_refl 0) _ _ H).
Qed.

Lemma format_e_Qeq (q q' : Q) (precision : nat) :
  q == q' -> format_e (Fin q) precision = format_e (Fin q') precision.
Proof.
  intros H. unfold format_e.
  rewrite (sig_digits_Qeq (Qabs q) (Qabs q') (S precision))
    by (apply Qabs_nonneg || now apply Qabs_wd).
  now rewrite (Qltb_Qeq q q' H).
Qed.

Lemma format_g_Qeq (q q' : Q) (s : format_spec) (precision : nat) :
  q == q' -> format_g (Fin q) s precision = format_g (Fin q') s precision.
Proof.
  intros H. unfold format_g, g_body.
  rewrite (sig_digits_Qeq (Qabs q) (Qabs q') (Nat.max 1 precision))
    by (apply Qabs_nonneg || now apply Qabs_wd).
  now rewrite (Qltb_Qeq q q' H).
Qed.

(** Two fractions of the same value give the same result. *)
Lemma formatSI_Qeq (q q' : Q) (precision : nat) (s : format_spec) :
  q == q' -> formatSI (Fin q) precision s = formatSI (Fin q') precision s.
Proof.
  intros H. unfold formatSI. cbn [float_eq0].
  rewrite (Qeqb_comp _ _ H 0 0 (Qeq_refl 0)).
  now rewrite (format_e_Qeq q q' precision H).
Qed.

(** ** The rounding step *)

Lemma round_half_even_error (q : Q) :
  Qabs (inject_Z (round_half_even q) - q) <= 1 # 2.
Proof.
  unfold round_half_even.
  pose proof (Qfloor_le q) as Hlo. pose proof (Qlt_floor q) as Hhi.
  rewrite inject_Z_plus in Hhi. change (inject_Z 1) with 1 in Hhi.
  apply Qabs_Qle_condition.
  destruct (q - inject_Z (Qfloor q) ?= 1 # 2)%Q eqn:C.
  - apply Qeq_alt in C.
    destruct (Z.even (Qfloor q)); rewrite ?inject_Z_plus;
      change (inject_Z 1) with 1; split; lra.
  - apply Qlt_alt in C. split; lra.
  - apply Qgt_alt in C. rewrite inject_Z_plus. change (inject_Z 1) with 1.
    split; lra.
Qed.

Lemma round_half_even_Z (m : Z) : round_half_even (inject_Z m) = m.
Proof.
  unfold round_half_even. rewrite Qfloor_Z.
  assert (Z0 : inject_Z m - inject_Z m == 0) by ring.
  assert (C : (inject_Z m - inject_Z m ?= 1 # 2)%Q = Lt)
    by (apply Qlt_alt; rewrite Z0; reflexivity).
  now rewrite C.
Qed.

(** The value that [sig_digits] stands for is the rounded scaled number,
    scaled back. *)
Lemma sig_digits_value (q : Q) (p : nat) (m x : Z) :
  0 < q -> sig_digits q (S p) = (m, x) ->
  inject_Z m * Qpower 10 (x - Z.of_nat p)
  == inject_Z (round_half_even (q * Qpower 10 (Z.of_nat p - ilog 10 q)))
     * Qpower 10 (ilog 10 q - Z.of_nat p).
Proof.
  intros Hq. unfold sig_digits.
  destruct (Qeq_bool q 0) eqn:Z0.
  { apply Qeq_bool_iff in Z0. rewrite Z0 in Hq. discriminate. }
  replace (Z.of_nat (S p) - 1 - ilog 10 q)%Z
    with (Z.of_nat p - ilog 10 q)%Z by lia.
  replace (Z.of_nat (S p) - 1)%Z with (Z.of_nat p) by lia.
  set (m0 := round_half_even (q * Qpower 10 (Z.of_nat p - ilog 10 q))).
  destruct (Z.eqb_spec m0 (10 ^ Z.of_nat (S p))) as [E|N];
    intros [= <- <-]; [|reflexivity].
  rewrite E, !pow10_shift by lia. apply Qpower_comp; [reflexivity|lia].
Qed.

Lemma Qabs_scale (a c : Q) : 0 <= c -> Qabs (a * c) == Qabs a * c.
Proof.
  intros H. now rewrite Qabs_Qmult, (Qabs_pos c H).
Qed.

(** The decimal rounding moves a positive number by at most half a unit
    of its last kept digit. *)
Lemma sig_digits_error (q : Q) (p : nat) (m x : Z) :
  0 < q -> sig_digits q (S p) = (m, x) ->
  Qabs (inject_Z m * Qpower 10 (x - Z.of_nat p) - q)
  <= (1 # 2) * Qpower 10 (ilog 10 q - Z.of_nat p).
Proof.
  intros Hq E. rewrite (sig_digits_value q p m x Hq E).
  set (k := (ilog 10 q - Z.of_nat p)%Z).
  set (s := q * Qpower 10 (Z.of_nat p - ilog 10 q)).
  assert (Hs : q == s * Qpower 10 k).
  { unfold s, k. rewrite <- Qmult_assoc, <- Qpower_plus by discriminate.
    replace (Z.of_nat p - ilog 10 q + (ilog 10 q - Z.of_nat p))%Z with 0%Z
      by lia.
    change (Qpower 10 0) with 1. now rewrite Qmult_1_r. }
  assert (D : inject_Z (round_half_even s) * Qpower 10 k - q
              == (inject_Z (round_half_even s) - s) * Qpower 10 k).
  { rewrite Hs at 1. ring. }
  rewrite D, Qabs_scale by (apply Qlt_le_weak, pow10_pos).
  apply Qmult_le_compat_r; [apply round_half_even_error|].
  apply Qlt_le_weak, pow10_pos.
Qed.

Lemma rounded_below_threshold (q : Q) (p : nat) (m x : Z) :
  0 < q -> q < Qpower 10 308 -> sig_digits q (S p) = (m, x) ->
  inject_Z m * Qpower 10 (x - Z.of_nat p) < overflow_threshold.
Proof.
  intros Ha Hhi E.
  destruct (sig_digits_spec _ _ Ha m x E) as (_ & _ & V2).
  destruct (ilog_spec 10 q) as [X1 _]; [lia|exact Ha|].
  change (inject_Z 10) with 10%Q in X1.
  assert (X : (ilog 10 q < 308)%Z).
  { apply (Qpower_lt_compat_l_inv 10); [|reflexivity].
    now apply Qle_lt_trans with q. }
  apply Qle_lt_trans with (Qpower 10 308); [|vm_compute; reflexivity].
  apply Qle_trans with (Qpower 10 (ilog 10 q + 1)); [exact V2|].
  apply Qpower_le_compat_l; [lia|discriminate].
Qed.

(** The rounding step, with the digits it keeps: when the decimal
    rounding [(m, x)] of the magnitude stays within the doubles, the
    printed number reads back as [m * 10^(x - p)] with the sign of the
    input. *)
Lemma rounding_step_exact (q : Q) (p : nat) (m x : Z) :
  0 < Qabs q ->
  sig_digits (Qabs q) (S p) = (m, x) ->
  inject_Z m * Qpower 10 (x - Z.of_nat p) < overflow_threshold ->
  float_of_string (format_e (Fin q) p)
  = Ok (Fin (if Qltb q 0
             then - (inject_Z m * Qpower 10 (x - Z.of_nat p))
             else inject_Z m * Qpower 10 (x - Z.of_nat p))).
Proof.
  intros Ha E Hhi.
  destruct (sig_digits_spec _ _ Ha m x E) as (Hm & V1 & V2).
  pose proof (rounding_step_pos _ p m x Ha E) as Rp.
  pose proof (rounding_step_neg _ p m x Ha E) as Rn.
  set (v := inject_Z m * Qpower 10 (x - Z.of_nat p)) in *.
  assert (Vpos : 0 < v)
    by (apply Qlt_le_trans with (Qpower 10 (ilog 10 (Qabs q)));
        [apply pow10_pos|exact V1]).
  assert (Hd : to_double v = Fin v).
  { unfold to_double. rewrite (Qabs_pos_eq v (Qlt_le_weak _ _ Vpos)).
    destruct (Qle_bool overflow_threshold v) eqn:B; [|reflexivity].
    apply Qle_bool_iff in B. exfalso. exact (Qle_not_lt _ _ B Hhi). }
  rewrite Hd in Rp, Rn. cbn [float_neg] in Rn.
  destruct (Qlt_le_dec q 0) as [Neg|Pos].
  - rewrite (Qltb_true q 0 Neg).
    now rewrite (Qabs_neg_eq q (Qlt_le_weak _ _ Neg)), Qopp_opp_eq in Rn.
  - rewrite (Qltb_false q 0 Pos). now rewrite (Qabs_pos_eq q Pos) in Rp.
Qed.

Lemma Qltb_opp_pos (q v : Q) :
  0 < v -> Qltb (if Qltb q 0 then - v else v) 0 = Qltb q 0.
Proof.
  intros Hv. destruct (Qltb q 0).
  - apply Qltb_true. now apply Qopp_neg.
  - apply Qltb_false. now apply Qlt_le_weak.
Qed.

(** A decimal of [S p] digits is its own rounding to [S p] digits. *)
Lemma sig_digits_fixed (p : nat) (m x : Z) :
  (10 ^ Z.of_nat p <= m < 10 ^ Z.of_nat (S p))%Z ->
  sig_digits (inject_Z m * Qpower 10 (x - Z.of_nat p)) (S p) = (m, x).
Proof.
  intros Hm. set (v := inject_Z m * Qpower 10 (x - Z.of_nat p)).
  assert (Pp : (0 < 10 ^ Z.of_nat p)%Z) by (apply Z.pow_pos_nonneg; lia).
  assert (Lo : Qpower 10 x <= v).
  { unfold v.
    apply Qle_trans
      with (inject_Z (10 ^ Z.of_nat p) * Qpower 10 (x - Z.of_nat p)).
    - rewrite pow10_shift by lia.
      replace (Z.of_nat p + (x - Z.of_nat p))%Z with x by lia.
      apply Qle_refl.
    - apply Qmult_le_compat_r; [|apply Qlt_le_weak, pow10_pos].
      rewrite <- Zle_Qle. lia. }
  assert (Hi : v < Qpower 10 (x + 1)).
  { unfold v.
    apply Qlt_le_trans
      with (inject_Z (10 ^ Z.of_nat (S p)) * Qpower 10 (x - Z.of_nat p)).
    - apply Qmult_lt_compat_r; [apply pow10_pos|].
      rewrite <- Zlt_Qlt. lia.
    - rewrite pow10_shift by lia.
      replace (Z.of_nat (S p) + (x - Z.of_nat p))%Z with (x + 1)%Z by lia.
      apply Qle_refl. }
  assert (Vpos : 0 < v)
    by (apply Qlt_le_trans with (Qpower 10 x); [apply pow10_pos|exact Lo]).
  assert (X : ilog 10 v = x) by (apply ilog_unique; [lia|assumption..]).
  unfold sig_digits.
  destruct (Qeq_bool v 0) eqn:Z0.
  { apply Qeq_bool_iff in Z0. rewrite Z0 in Vpos. discriminate. }
  rewrite X.
  replace (Z.of_nat (S p) - 1 - x)%Z with (Z.of_nat p - x)%Z by lia.
  rewrite (round_half_even_Qeq _ (inject_Z m)).
  - rewrite round_half_even_Z.
    destruct (Z.eqb_spec m (10 ^ Z.of_nat (S p))); [lia|reflexivity].
  - unfold v. rewrite <- Qmult_assoc, <- Qpower_plus by discriminate.
    replace (x - Z.of_nat p + (Z.of_nat p - x))%Z with 0%Z by lia.
    change (Qpower 10 0) with 1. apply Qmult_1_r.
Qed.

(** Rounding twice is rounding once, and [formatSI] only sees the rounded
    number: if the rounding step turns [x] into [r], it leaves [r] as it
    is, and [formatSI(r, p, s)] is [formatSI(x, p, s)]. *)
Theorem formatSI_of_rounded (q : Q) (p : nat) (s : format_spec) (r : Q) :
  0 < Qabs q -> Qabs q < Qpower 10 308 ->
  float_of_string (format_e (Fin q) p) = Ok (Fin r) ->
  float_of_string (format_e (Fin r) p) = Ok (Fin r)
  /\ formatSI (Fin r) p s = formatSI (Fin q) p s.
Proof.
  intros Ha Hhi R.
  destruct (sig_digits (Qabs q) (S p)) as [m x] eqn:E.
  pose proof (rounded_below_threshold _ p m x Ha Hhi E) as T.
  pose proof (rounding_step_exact q p m x Ha E T) as R'.
  destruct (sig_digits_spec _ _ Ha m x E) as (Hm & V1 & V2).
  set (v := inject_Z m * Qpower 10 (x - Z.of_nat p)) in *.
  assert (Vpos : 0 < v)
    by (apply Qlt_le_trans with (Qpower 10 (ilog 10 (Qabs q)));
        [apply pow10_pos|exact V1]).
  rewrite R' in R. injection R as <-.
  set (r := if Qltb q 0 then - v else v) in *.
  assert (Ar : Qabs r = v) by now apply signed_value_abs.
  assert (Hr : 0 < Qabs r) by now rewrite Ar.
  assert (Sr : Qltb r 0 = Qltb q 0) by now apply Qltb_opp_pos.
  assert (Rr : float_of_string (format_e (Fin r) p) = Ok (Fin r)).
  { rewrite (rounding_step_exact r p m x Hr).
    - fold v. now rewrite Sr.
    - rewrite Ar. now apply sig_digits_fixed.
    - exact T. }
  split; [exact Rr|].
  rewrite !formatSI_render by now apply float_eq0_false.
  now rewrite Rr, R'.
Qed.

Lemma formatSI_of_rounded_999_96 :
  0 < Qabs (99996 # 100) /\ Qabs (99996 # 100) < Qpower 10 308
  /\ float_of_string (format_e (Fin (99996 # 100)) 3) = Ok (Fin 1000)
  /\ float_of_string (format_e (Fin 1000) 3) = Ok (Fin 1000)
  /\ formatSI (Fin 1000) 3 spec_empty
     = formatSI (Fin (99996 # 100)) 3 spec_empty.
Proof.
  assert (H1 : 0 < Qabs (99996 # 100)) by reflexivity.
  assert (H2 : Qabs (99996 # 100) < Qpower 10 308)
    by (vm_compute; reflexivity).
  assert (H3 : float_of_string (format_e (Fin (99996 # 100)) 3)
               = Ok (Fin 1000)) by (vm_compute; reflexivity).
  split; [exact H1|]. split; [exact H2|]. split; [exact H3|].
  exact (formatSI_of_rounded (99996 # 100) 3 spec_empty 1000 H1 H2 H3).
Defined.

(** ** Tiers *)

Lemma pow1000 (e : Z) : Qpower 1000 e == Qpower 10 (3 * e).
Proof.
  rewrite Qpower_mult. apply Qpower_comp; reflexivity.
Qed.

(** The rounded number lies in the tier of [x] or on the boundary of the
    next one. *)
Lemma rounded_tier (q : Q) (p : nat) (m x : Z) :
  0 < q -> sig_digits q (S p) = (m, x) ->
  Qpower 1000 (ilog 1000 q) <= inject_Z m * Qpower 10 (x - Z.of_nat p)
  /\ inject_Z m * Qpower 10 (x - Z.of_nat p) <= Qpower 1000 (ilog 1000 q + 1).
Proof.
  intros Hq E.
  destruct (sig_digits_spec _ _ Hq m x E) as (_ & V1 & V2).
  destruct (ilog_spec 10 q) as [X1 X2]; [lia|exact Hq|].
  destruct (ilog_spec 1000 q) as [T1 T2]; [lia|exact Hq|].
  change (inject_Z 10) with 10%Q in X1, X2.
  change (inject_Z 1000) with 1000%Q in T1, T2.
  rewrite pow1000 in T1, T2. rewrite !pow1000.
  assert (A : (3 * ilog 1000 q < ilog 10 q + 1)%Z).
  { apply (Qpower_lt_compat_l_inv 10); [|reflexivity].
    now apply Qle_lt_trans with q. }
  assert (B : (ilog 10 q < 3 * (ilog 1000 q + 1))%Z).
  { apply (Qpower_lt_compat_l_inv 10); [|reflexivity].
    now apply Qle_lt_trans with q. }
  split.
  - apply Qle_trans with (Qpower 10 (ilog 10 q)); [|exact V1].
    apply Qpower_le_compat_l; [lia|discriminate].
  - apply Qle_trans with (Qpower 10 (ilog 10 q + 1)); [exact V2|].
    apply Qpower_le_compat_l; [lia|discriminate].
Qed.

Lemma tier_of_rounded (q v : Q) :
  0 < q -> 0 < v ->
  Qpower 1000 (ilog 1000 q) <= v -> v <= Qpower 1000 (ilog 1000 q + 1) ->
  ilog 1000 v = ilog 1000 q
  \/ (ilog 1000 v = (ilog 1000 q + 1)%Z /\ v == Qpower 1000 (ilog 1000 q + 1)).
Proof.
  intros Hq Hv Lo Hi.
  destruct (Qle_lt_or_eq _ _ Hi) as [L|E].
  - left. apply ilog_unique; [lia|assumption..].
  - right. split; [|exact E].
    apply ilog_unique; [lia|exact Hv|..].
    + change (inject_Z 1000) with 1000%Q. rewrite E. apply Qle_refl.
    + change (inject_Z 1000) with 1000%Q. rewrite E.
      apply Qpower_lt_compat_l; [lia|reflexivity].
Qed.

Lemma rounded_cases (q : Q) (p : nat) :
  0 < Qabs q -> Qabs q < Qpower 10 308 ->
  exists v : Q,
    0 < v
    /\ float_of_string (format_e (Fin q) p)
       = Ok (Fin (if Qltb q 0 then - v else v))
    /\ (ilog 1000 v = ilog 1000 (Qabs q)
        \/ (ilog 1000 v = (ilog 1000 (Qabs q) + 1)%Z
            /\ v == Qpower 1000 (ilog 1000 (Qabs q) + 1))).
Proof.
  intros Ha Hhi.
  destruct (sig_digits (Qabs q) (S p)) as [m x] eqn:E.
  pose proof (rounding_step_exact q p m x Ha E
                (rounded_below_threshold _ p m x Ha Hhi E)) as R.
  destruct (rounded_tier _ p m x Ha E) as [Lo Hi].
  set (v := inject_Z m * Qpower 10 (x - Z.of_nat p)) in *.
  assert (Vpos : 0 < v)
    by (apply Qlt_le_trans with (Qpower 1000 (ilog 1000 (Qabs q)));
        [apply Qpower_0_lt; reflexivity|exact Lo]).
  exists v. split; [exact Vpos|]. split; [exact R|].
  exact (tier_of_rounded _ v Ha Vpos Lo Hi).
Qed.

Lemma render_outside (r : Q) (p : nat) (s : format_spec) :
  ~ r == 0 ->
  (ilog 1000 (Qabs r) < -4 \/ 4 < ilog 1000 (Qabs r))%Z ->
  render (Fin r) p s = Ok (format_g (Fin r) s p ++ " ").
Proof.
  intros Hr Ho. unfold render.
  destruct (prefixKey_finite r Hr) as [_ ->]. cbn [Py.bind].
  now rewrite prefixDict_outside.
Qed.

(** Beyond the table: a number of magnitude at least [1e15], or below
    [1e-15], is returned unscaled: the rounded number in the general
    format and a space, no prefix. *)
Theorem formatSI_unscaled (q : Q) (p : nat) (s : format_spec) :
  0 < Qabs q -> Qabs q < Qpower 10 308 ->
  Qabs q < Qpower 10 (-15) \/ Qpower 10 15 <= Qabs q ->
  exists r : Q,
    float_of_string (format_e (Fin q) p) = Ok (Fin r)
    /\ formatSI (Fin q) p s = Ok (format_g (Fin r) s p ++ " ").
Proof.
  intros Ha Hhi Hout.
  destruct (rounded_cases q p Ha Hhi) as (v & Vpos & R & T).
  exists (if Qltb q 0 then - v else v). split; [exact R|].
  assert (O : (ilog 1000 (Qabs q) < -5 \/ 5 <= ilog 1000 (Qabs q))%Z).
  { destruct (ilog_spec 1000 (Qabs q)) as [T1 T2]; [lia|exact Ha|].
    change (inject_Z 1000) with 1000%Q in T1, T2.
    destruct Hout as [Lo|Hi'].
    - left.
      apply (Qpower_lt_compat_l_inv 1000); [|reflexivity].
      apply Qle_lt_trans with (Qabs q); [exact T1|].
      apply Qlt_le_trans with (Qpower 10 (-15)); [exact Lo|].
      apply Qle_bool_imp_le. vm_compute. reflexivity.
    - right. assert (5 < ilog 1000 (Qabs q) + 1)%Z; [|lia].
      apply (Qpower_lt_compat_l_inv 1000); [|reflexivity].
      apply Qle_lt_trans with (Qabs q); [|exact T2].
      apply Qle_trans with (Qpower 10 15); [|exact Hi'].
      apply Qle_bool_imp_le. vm_compute. reflexivity. }
  rewrite (formatSI_render _ _ _ (float_eq0_false q Ha)), R. cbn [Py.bind].
  apply render_outside; [now apply signed_value_nonzero|].
  rewrite (signed_value_abs q v Vpos). destruct T as [->|[-> _]]; lia.
Qed.

Lemma formatSI_unscaled_1e20 :
  0 < Qabs (inject_Z (10 ^ 20)) /\ Qabs (inject_Z (10 ^ 20)) < Qpower 10 308
  /\ (Qabs (inject_Z (10 ^ 20)) < Qpower 10 (-15)
      \/ Qpower 10 15 <= Qabs (inject_Z (10 ^ 20)))
  /\ exists r : Q,
       float_of_string (format_e (Fin (inject_Z (10 ^ 20))) 3) = Ok (Fin r)
       /\ formatSI (Fin (inject_Z (10 ^ 20))) 3 spec_empty
          = Ok (format_g (Fin r) spec_empty 3 ++ " ").
Proof.
  assert (H1 : 0 < Qabs (inject_Z (10 ^ 20))) by reflexivity.
  assert (H2 : Qabs (inject_Z (10 ^ 20)) < Qpower 10 308)
    by (vm_compute; reflexivity).
  assert (H3 : Qabs (inject_Z (10 ^ 20)) < Qpower 10 (-15)
               \/ Qpower 10 15 <= Qabs (inject_Z (10 ^ 20)))
    by (right; apply Qle_bool_imp_le; vm_compute; reflexivity).
  split; [exact H1|]. split; [exact H2|]. split; [exact H3|].
  exact (formatSI_unscaled (inject_Z (10 ^ 20)) 3 spec_empty H1 H2 H3).
Defined.

(** ** The table and its keys *)

(** The lookup [prefixKey in prefixDict] succeeds for the exponents -4..4
    and for no other: the key of an exponent is found exactly when the
    exponent is one of the nine of the table, and two exponents never
    share a key. *)
Theorem prefixDict_lookup (e : Z) :
  ((exists prefix, dict_get prefixDict (format_plus_d e) = Some prefix)
   <-> (-4 <= e <= 4)%Z)
  /\ (forall e' : Z, format_plus_d e = format_plus_d e' -> e = e').
Proof.
  split; [split|].
  - intros [prefix H].
    destruct (Z.lt_ge_cases e (-4)) as [L|G];
      [rewrite prefixDict_outside in H by lia; discriminate|].
    destruct (Z.lt_ge_cases 4 e) as [L|G'];
      [rewrite prefixDict_outside in H by lia; discriminate|].
    lia.
  - intros H. exists (si_symbol e). now apply prefixDict_inside.
  - intros e'. apply format_plus_d_inj.
Qed.

(** ** Inputs that are not finite, and the top of the range *)

(** [formatSI(nan, p, s)] raises [ValueError] and [formatSI(inf, p, s)],
    [formatSI(-inf, p, s)] raise [OverflowError], at the conversion
    [int(baseThousand)], whatever the precision and the specification. *)
Theorem formatSI_not_finite (p : nat) (s : format_spec) :
  formatSI NaN p s = Raise ValueError
  /\ formatSI (Inf false) p s = Raise OverflowError
  /\ formatSI (Inf true) p s = Raise OverflowError.
Proof. repeat split. Qed.

Lemma round_half_even_above_odd (s : Q) (n : Z) :
  Z.odd n = true -> inject_Z n + (1 # 2) <= s ->
  (n + 1 <= round_half_even s)%Z.
Proof.
  intros Ho H. unfold round_half_even.
  assert (F : (n <= Qfloor s)%Z).
  { rewrite <- (Qfloor_Z n). apply Qfloor_resp_le.
    apply Qle_trans with (inject_Z n + (1 # 2)); [|exact H]. lra. }
  destruct (Z.eq_dec (Qfloor s) n) as [E|N].
  - rewrite E.
    destruct (inject_Z n + (1 # 2) ?= s)%Q eqn:C.
    + apply Qeq_alt in C.
      assert (C' : (s - inject_Z n ?= 1 # 2)%Q = Eq) by (apply Qeq_alt; lra).
      rewrite C'. rewrite <- Z.negb_odd, Ho. cbn. lia.
    + apply Qlt_alt in C.
      assert (C' : (s - inject_Z n ?= 1 # 2)%Q = Gt) by (apply Qgt_alt; lra).
      rewrite C'. lia.
    + apply Qgt_alt in C. exfalso. apply (Qlt_not_le _ _ C H).
  - destruct (s - inject_Z (Qfloor s) ?= 1 # 2)%Q;
      [destruct (Z.even (Qfloor s))|..]; lia.
Qed.

(** At the default precision every number of magnitude [1.7975e308] or
    more, the largest doubles among them, is rounded beyond the doubles by
    the rounding step, and [formatSI] raises [OverflowError]. *)
Theorem formatSI_overflow_band (q : Q) (s : format_spec) :
  inject_Z 17975 * Qpower 10 304 <= Qabs q -> Qabs q < Qpower 10 309 ->
  formatSI (Fin q) 3 s = Raise OverflowError.
Proof.
  intros Hlo Hhi.
  assert (Ha : 0 < Qabs q).
  { apply Qlt_le_trans with (inject_Z 17975 * Qpower 10 304); [|exact Hlo].
    vm_compute. reflexivity. }
  assert (X : ilog 10 (Qabs q) = 308%Z).
  { apply ilog_unique; [lia|exact Ha| |exact Hhi].
    apply Qle_trans with (inject_Z 17975 * Qpower 10 304); [|exact Hlo].
    apply Qle_bool_imp_le. vm_compute. reflexivity. }
  destruct (sig_digits (Qabs q) 4) as [m x] eqn:E.
  pose proof (sig_digits_value _ 3 m x Ha E) as V.
  rewrite X in V. change (Z.of_nat 3) with 3%Z in V.
  change (3 - 308)%Z with (-305)%Z in V. change (308 - 3)%Z with 305%Z in V.
  set (v := inject_Z m * Qpower 10 (x - 3)) in *.
  assert (M : (1798 <= round_half_even (Qabs q * Qpower 10 (-305)))%Z).
  { apply (round_half_even_above_odd _ 1797); [reflexivity|].
    apply Qle_trans with (inject_Z 17975 * Qpower 10 304 * Qpower 10 (-305)).
    - apply Qle_bool_imp_le. vm_compute. reflexivity.
    - apply Qmult_le_compat_r; [exact Hlo|apply Qlt_le_weak, pow10_pos]. }
  assert (T : overflow_threshold <= v).
  { rewrite V.
    apply Qle_trans with (inject_Z 1798 * Qpower 10 305).
    - apply Qle_bool_imp_le. vm_compute. reflexivity.
    - apply Qmult_le_compat_r; [|apply Qlt_le_weak, pow10_pos].
      now rewrite <- Zle_Qle. }
  assert (Vpos : 0 < v)
    by (apply Qlt_le_trans with overflow_threshold;
        [vm_compute; reflexivity|exact T]).
  assert (D : to_double v = Inf false).
  { unfold to_double. rewrite (Qabs_pos_eq v (Qlt_le_weak _ _ Vpos)).
    apply Qle_bool_iff in T. rewrite T.
    now rewrite (Qltb_false v 0 (Qlt_le_weak _ _ Vpos)). }
  pose proof (rounding_step_pos _ 3 m x Ha E) as Rp.
  pose proof (rounding_step_neg _ 3 m x Ha E) as Rn.
  change (Z.of_nat 3) with 3%Z in Rp, Rn. fold v in Rp, Rn.
  rewrite D in Rp, Rn. cbn [float_neg negb] in Rn.
  rewrite (formatSI_render _ _ _ (float_eq0_false q Ha)).
  destruct (Qlt_le_dec q 0) as [Neg|Pos].
  - rewrite (Qabs_neg_eq q (Qlt_le_weak _ _ Neg)), Qopp_opp_eq in Rn.
    now rewrite Rn.
  - rewrite (Qabs_pos_eq q Pos) in Rp. now rewrite Rp.
Qed.

Lemma formatSI_overflow_band_DBL_MAX :
  inject_Z 17975 * Qpower 10 304 <= Qabs DBL_MAX
  /\ Qabs DBL_MAX < Qpower 10 309
  /\ formatSI (Fin DBL_MAX) 3 spec_empty = Raise OverflowError.
Proof.
  assert (H1 : inject_Z 17975 * Qpower 10 304 <= Qabs DBL_MAX)
    by (apply Qle_bool_imp_le; vm_compute; reflexivity).
  assert (H2 : Qabs DBL_MAX < Qpower 10 309) by (vm_compute; reflexivity).
  split; [exact H1|]. split; [exact H2|].
  exact (formatSI_overflow_band DBL_MAX spec_empty H1 H2).
Defined.

(** ** The prefix of a number *)

Lemma render_inside (r : Q) (p : nat) (s : format_spec) :
  ~ r == 0 ->
  (-4 <= ilog 1000 (Qabs r) <= 4)%Z ->
  render (Fin r) p s
  = Ok (format_g (Fin (r / Qpower 1000 (ilog 1000 (Qabs r)))) s p
          ++ " " ++ si_symbol (ilog 1000 (Qabs r))).
Proof.
  intros Hr Hi. unfold render.
  destruct (prefixKey_finite r Hr) as [_ ->]. cbn [Py.bind].
  rewrite (prefixDict_inside _ Hi).
  destruct (shortenedDigits_bound r Hr) as (m & -> & Em & _).
  now rewrite (format_g_Qeq _ _ s p Em).
Qed.

Lemma signed_unit (q v P : Q) :
  0 < P -> v == P ->
  (if Qltb q 0 then - v else v) / P == (if Qltb q 0 then - (1) else 1).
Proof.
  intros HP E.
  assert (N : ~ P == 0) by (intros Z; rewrite Z in HP; discriminate).
  destruct (Qltb q 0); rewrite E; field; exact N.
Qed.

(** ** Around a power of 1000, at the default precision *)

Lemma pow10_cancel (k : Z) : Qpower 10 k * Qpower 10 (- k) == 1.
Proof.
  rewrite <- Qpower_plus by discriminate.
  replace (k + - k)%Z with 0%Z by lia. reflexivity.
Qed.

(** A number between [lo] and [hi] units of the fourth digit of the tier
    [e]: its decimal exponent, and its first four digits before rounding. *)
Lemma band_scaled (a lo hi : Q) (e : Z) :
  1000 <= lo -> hi <= 10000 ->
  lo * Qpower 10 (3 * e - 1) <= a -> a < hi * Qpower 10 (3 * e - 1) ->
  0 < a /\ ilog 10 a = (3 * e + 2)%Z
  /\ lo <= a * Qpower 10 (3 - (3 * e + 2))
  /\ a * Qpower 10 (3 - (3 * e + 2)) < hi.
Proof.
  intros L H Lo Hi.
  pose proof (pow10_pos (3 * e - 1)) as PP.
  pose proof (pow10_pos (- (3 * e - 1))) as PN.
  replace (3 - (3 * e + 2))%Z with (- (3 * e - 1))%Z by lia.
  assert (A1 : Qpower 10 (3 * e + 2) <= a).
  { apply Qle_trans with (lo * Qpower 10 (3 * e - 1)); [|exact Lo].
    replace (3 * e + 2)%Z with (3 + (3 * e - 1))%Z by lia.
    rewrite Qpower_plus by discriminate.
    apply Qmult_le_compat_r; [exact L|now apply Qlt_le_weak]. }
  assert (A2 : a < Qpower 10 (3 * e + 2 + 1)).
  { apply Qlt_le_trans with (hi * Qpower 10 (3 * e - 1)); [exact Hi|].
    replace (3 * e + 2 + 1)%Z with (4 + (3 * e - 1))%Z by lia.
    rewrite Qpower_plus by discriminate.
    apply Qmult_le_compat_r; [exact H|now apply Qlt_le_weak]. }
  assert (Ha : 0 < a)
    by (apply Qlt_le_trans with (Qpower 10 (3 * e + 2));
        [apply pow10_pos|exact A1]).
  split; [exact Ha|]. split; [apply ilog_unique; [lia|assumption..]|].
  split.
  - apply Qle_trans
      with (lo * Qpower 10 (3 * e - 1) * Qpower 10 (- (3 * e - 1))).
    + rewrite <- Qmult_assoc, pow10_cancel, Qmult_1_r. apply Qle_refl.
    + apply Qmult_le_compat_r; [exact Lo|now apply Qlt_le_weak].
  - apply Qlt_le_trans
      with (hi * Qpower 10 (3 * e - 1) * Qpower 10 (- (3 * e - 1))).
    + apply Qmult_lt_compat_r; [exact PN|exact Hi].
    + rewrite <- Qmult_assoc, pow10_cancel, Qmult_1_r. apply Qle_refl.
Qed.

Lemma signed_ratio (q v w P : Q) :
  0 < P -> v == w * P ->
  (if Qltb q 0 then - v else v) / P == (if Qltb q 0 then - w else w).
Proof.
  intros HP E.
  assert (N : ~ P == 0) by (intros Z; rewrite Z in HP; discriminate).
  destruct (Qltb q 0); rewrite E; field; exact N.
Qed.

(** The last twentieth of a unit below a power of 1000 is promoted: at
    precision 3, a number from [999.95 * 1000^e] up to [1000^(e+1)]
    excluded, for a tier [e] from -5 to 3, gives ["1 "] (["-1 "] when
    negative) and the prefix of the tier [e + 1]. *)
Theorem formatSI_promoted (q : Q) (e : Z) :
  (-5 <= e <= 3)%Z ->
  (19999 # 2) * Qpower 10 (3 * e - 1) <= Qabs q ->
  Qabs q < Qpower 1000 (e + 1) ->
  formatSI (Fin q) 3 spec_empty
  = Ok (sign_str (Qltb q 0) ++ "1 " ++ si_symbol (e + 1)).
Proof.
  intros He Hlo Hhi.
  assert (Hhi' : Qabs q < 10000 * Qpower 10 (3 * e - 1)).
  { rewrite pow1000 in Hhi.
    replace (3 * (e + 1))%Z with (4 + (3 * e - 1))%Z in Hhi by lia.
    now rewrite Qpower_plus in Hhi by discriminate. }
  destruct (band_scaled (Qabs q) (19999 # 2) 10000 e) as (Ha & X & S1 & S2);
    [discriminate|discriminate|exact Hlo|exact Hhi'|].
  destruct (sig_digits (Qabs q) 4) as [m x] eqn:E.
  pose proof (sig_digits_value _ 3 m x Ha E) as V.
  rewrite X in V. change (Z.of_nat 3) with 3%Z in V.
  assert (M : round_half_even (Qabs q * Qpower 10 (3 - (3 * e + 2)))
              = 10000%Z).
  { pose proof (round_half_even_above_odd _ 9999 eq_refl S1).
    pose proof (round_half_even_bounds _ 9999 10000
                  ltac:(apply Qle_trans with (19999 # 2);
                        [discriminate|exact S1]) S2).
    lia. }
  rewrite M in V.
  assert (V' : inject_Z m * Qpower 10 (x - 3) == Qpower 1000 (e + 1)).
  { rewrite V, pow1000. change (inject_Z 10000) with (Qpower 10 4).
    rewrite <- Qpower_plus by discriminate.
    apply Qpower_comp; [reflexivity|lia]. }
  assert (T : inject_Z m * Qpower 10 (x - 3) < overflow_threshold).
  { rewrite V'.
    apply Qle_lt_trans with (Qpower 1000 4); [|vm_compute; reflexivity].
    apply Qpower_le_compat_l; [lia|discriminate]. }
  pose proof (rounding_step_exact q 3 m x Ha E T) as R.
  change (Z.of_nat 3) with 3%Z in R.
  set (v := inject_Z m * Qpower 10 (x - 3)) in *.
  assert (PP : 0 < Qpower 1000 (e + 1)) by (apply Qpower_0_lt; reflexivity).
  assert (Vpos : 0 < v) by now rewrite V'.
  assert (Tv : ilog 1000 v = (e + 1)%Z).
  { apply ilog_unique; [lia|exact Vpos|..];
      change (inject_Z 1000) with 1000%Q; rewrite V'.
    - apply Qle_refl.
    - apply Qpower_lt_compat_l; [lia|reflexivity]. }
  rewrite (formatSI_render _ _ _ (float_eq0_false q Ha)), R. cbn [Py.bind].
  rewrite render_inside;
    rewrite ?(signed_value_abs q v Vpos), ?Tv;
    [|now apply signed_value_nonzero|lia].
  rewrite (format_g_Qeq _ _ spec_empty 3 (signed_unit q v _ PP V')).
  now destruct (Qltb q 0).
Qed.

Lemma formatSI_promoted_999_96 :
  (-5 <= 0 <= 3)%Z
  /\ (19999 # 2) * Qpower 10 (3 * 0 - 1) <= Qabs (99996 # 100)
  /\ Qabs (99996 # 100) < Qpower 1000 (0 + 1)
  /\ formatSI (Fin (99996 # 100)) 3 spec_empty = Ok "1 k".
Proof.
  assert (H1 : (-5 <= 0 <= 3)%Z) by lia.
  assert (H2 : (19999 # 2) * Qpower 10 (3 * 0 - 1) <= Qabs (99996 # 100))
    by (apply Qle_bool_imp_le; vm_compute; reflexivity).
  assert (H3 : Qabs (99996 # 100) < Qpower 1000 (0 + 1))
    by (vm_compute; reflexivity).
  split; [exact H1|]. split; [exact H2|]. split; [exact H3|].
  exact (formatSI_promoted (99996 # 100) 0 H1 H2 H3).
Defined.

Lemma four_digit_cases (m : Z) :
  (9995 <= m < 10000)%Z ->
  (m = 9995 \/ m = 9996 \/ m = 9997 \/ m = 9998 \/ m = 9999)%Z.
Proof. lia. Qed.

(** Just below that, the rounding step does not promote but the rendering
    rounds up: at precision 3, a number from [999.55 * 1000^e] up to
    [999.95 * 1000^e] excluded, for a tier [e] of the table, is rounded
    to one of [999.6 * 1000^e], ..., [999.9 * 1000^e], stays in the tier
    [e] and is shown as [1e+03] in front of the prefix of [e].  From
    [999.5 * 1000^e] to [999.55 * 1000^e] the rounded number is
    [999.5 * 1000^e], which the rendering has to round on a tie: the
    statement covers it for the tiers from 0 up, where that number and its
    quotient by [1000^e] are doubles. *)
Theorem formatSI_1e03_band (q : Q) (e : Z) :
  (-4 <= e <= 4)%Z ->
  (19991 # 2) * Qpower 10 (3 * e - 1) <= Qabs q
  \/ ((0 <= e)%Z /\ 9995 * Qpower 10 (3 * e - 1) <= Qabs q) ->
  Qabs q < (19999 # 2) * Qpower 10 (3 * e - 1) ->
  formatSI (Fin q) 3 spec_empty
  = Ok (sign_str (Qltb q 0) ++ "1e+03 " ++ si_symbol e).
Proof.
  intros He Hlo' Hhi.
  assert (Hlo : 9995 * Qpower 10 (3 * e - 1) <= Qabs q).
  { destruct Hlo' as [H|[_ H]]; [|exact H].
    apply Qle_trans with ((19991 # 2) * Qpower 10 (3 * e - 1)); [|exact H].
    apply Qmult_le_compat_r; [discriminate|].
    apply Qlt_le_weak, pow10_pos. }
  destruct (band_scaled (Qabs q) 9995 (19999 # 2) e) as (Ha & X & S1 & S2);
    [discriminate|discriminate|exact Hlo|exact Hhi|].
  destruct (sig_digits (Qabs q) 4) as [m x] eqn:E.
  pose proof (sig_digits_value _ 3 m x Ha E) as V.
  rewrite X in V. change (Z.of_nat 3) with 3%Z in V.
  set (m0 := round_half_even (Qabs q * Qpower 10 (3 - (3 * e + 2)))) in *.
  assert (M : (9995 <= m0 < 10000)%Z).
  { pose proof (round_half_even_bounds _ 9995 10000 S1
                  ltac:(apply Qlt_trans with (19999 # 2);
                        [exact S2|reflexivity])) as [B _].
    split; [exact B|].
    pose proof (round_half_even_error
                  (Qabs q * Qpower 10 (3 - (3 * e + 2)))) as Er.
    apply Qabs_Qle_condition in Er. destruct Er as [_ Er].
    unfold m0. revert Er S2.
    generalize (Qabs q * Qpower 10 (3 - (3 * e + 2))). intros sv Er S2.
    rewrite Zlt_Qlt. change (inject_Z 10000) with 10000%Q. lra. }
  replace (3 * e + 2 - 3)%Z with (3 * e - 1)%Z in V by lia.
  assert (PP : 0 < Qpower 10 (3 * e - 1)) by apply pow10_pos.
  assert (P1000 : Qpower 1000 e == 10 * Qpower 10 (3 * e - 1)).
  { rewrite pow1000. replace (3 * e)%Z with (1 + (3 * e - 1))%Z at 1 by lia.
    now rewrite Qpower_plus by discriminate. }
  assert (T : inject_Z m * Qpower 10 (x - 3) < overflow_threshold).
  { rewrite V.
    apply Qlt_le_trans with (10000 * Qpower 10 (3 * e - 1)).
    - apply Qmult_lt_compat_r; [exact PP|].
      change 10000%Q with (inject_Z 10000). rewrite <- Zlt_Qlt. lia.
    - apply Qle_trans with (10000 * Qpower 10 11).
      + apply Qmult_le_l; [reflexivity|].
        apply Qpower_le_compat_l; [lia|discriminate].
      + apply Qle_bool_imp_le. vm_compute. reflexivity. }
  pose proof (rounding_step_exact q 3 m x Ha E T) as R.
  change (Z.of_nat 3) with 3%Z in R.
  set (v := inject_Z m * Qpower 10 (x - 3)) in *.
  assert (Vlo : Qpower 1000 e <= v).
  { rewrite V, P1000. apply Qmult_le_compat_r; [|now apply Qlt_le_weak].
    change 10%Q with (inject_Z 10). rewrite <- Zle_Qle. lia. }
  assert (Vhi : v < Qpower 1000 (e + 1)).
  { rewrite V, pow1000.
    replace (3 * (e + 1))%Z with (4 + (3 * e - 1))%Z by lia.
    rewrite Qpower_plus by discriminate.
    apply Qmult_lt_compat_r; [exact PP|].
    change (Qpower 10 4) with (inject_Z 10000). rewrite <- Zlt_Qlt. lia. }
  assert (Vpos : 0 < v)
    by (apply Qlt_le_trans with (Qpower 1000 e);
        [apply Qpower_0_lt; reflexivity|exact Vlo]).
  assert (Tv : ilog 1000 v = e) by (apply ilog_unique; [lia|assumption..]).
  rewrite (formatSI_render _ _ _ (float_eq0_false q Ha)), R. cbn [Py.bind].
  rewrite render_inside;
    rewrite ?(signed_value_abs q v Vpos), ?Tv;
    [|now apply signed_value_nonzero|lia].
  assert (Rt : v == (inject_Z m0 / 10) * Qpower 1000 e).
  { rewrite V, P1000. field. }
  rewrite (format_g_Qeq _ _ spec_empty 3
             (signed_ratio q v _ _ (Qpower_0_lt 1000 e eq_refl) Rt)).
  apply four_digit_cases in M. clearbody m0. clear - M.
  destruct (Qltb q 0); destruct M as [-> | [-> | [-> | [-> | ->]]]];
    reflexivity.
Qed.

Lemma formatSI_1e03_band_999_6 :
  (-4 <= 0 <= 4)%Z
  /\ ((19991 # 2) * Qpower 10 (3 * 0 - 1) <= Qabs (9996 # 10)
      \/ ((0 <= 0)%Z /\ 9995 * Qpower 10 (3 * 0 - 1) <= Qabs (9996 # 10)))
  /\ Qabs (9996 # 10) < (19999 # 2) * Qpower 10 (3 * 0 - 1)
  /\ formatSI (Fin (9996 # 10)) 3 spec_empty = Ok "1e+03 ".
Proof.
  assert (H1 : (-4 <= 0 <= 4)%Z) by lia.
  assert (H2 : (19991 # 2) * Qpower 10 (3 * 0 - 1) <= Qabs (9996 # 10)
               \/ ((0 <= 0)%Z
                   /\ 9995 * Qpower 10 (3 * 0 - 1) <= Qabs (9996 # 10)))
    by (left; apply Qle_bool_imp_le; vm_compute; reflexivity).
  assert (H3 : Qabs (9996 # 10) < (19999 # 2) * Qpower 10 (3 * 0 - 1))
    by (vm_compute; reflexivity).
  split; [exact H1|]. split; [exact H2|]. split; [exact H3|].
  exact (formatSI_1e03_band (9996 # 10) 0 H1 H2 H3).
Defined.

(** ** The tier of a number, at the default precision *)

(** The rounding step at precision 3 takes [|x|] up to the next power of
    1000 exactly when [|x|] is at least 999.95 times the power of 1000
    below it. *)
Lemma default_rounding (q : Q) :
  0 < Qabs q -> Qabs q < Qpower 10 308 ->
  exists v : Q,
    0 < v
    /\ float_of_string (format_e (Fin q) 3)
       = Ok (Fin (if Qltb q 0 then - v else v))
    /\ ((Qabs q < (19999 # 2) * Qpower 10 (3 * ilog 1000 (Qabs q) - 1)
         /\ ilog 1000 v = ilog 1000 (Qabs q))
        \/ ((19999 # 2) * Qpower 10 (3 * ilog 1000 (Qabs q) - 1) <= Qabs q
            /\ ilog 1000 v = (ilog 1000 (Qabs q) + 1)%Z
            /\ v == Qpower 1000 (ilog 1000 (Qabs q) + 1))).
Proof.
  intros Ha Hhi.
  destruct (ilog_spec 1000 (Qabs q)) as [T1 T2]; [lia|exact Ha|].
  change (inject_Z 1000) with 1000%Q in T1, T2.
  destruct (ilog_spec 10 (Qabs q)) as [X1 _]; [lia|exact Ha|].
  change (inject_Z 10) with 10%Q in X1.
  destruct (sig_digits (Qabs q) 4) as [m x] eqn:E.
  pose proof (rounding_step_exact q 3 m x Ha E
                (rounded_below_threshold _ 3 m x Ha Hhi E)) as R.
  destruct (rounded_tier _ 3 m x Ha E) as [Lo _].
  pose proof (sig_digits_error _ 3 m x Ha E) as Er.
  pose proof (sig_digits_value _ 3 m x Ha E) as V.
  change (Z.of_nat 3) with 3%Z in R, Lo, Er, V.
  set (e := ilog 1000 (Qabs q)) in *.
  set (v := inject_Z m * Qpower 10 (x - 3)) in *.
  pose proof (pow10_pos (3 * e - 1)) as PP.
  assert (P1 : Qpower 1000 (e + 1) == 10000 * Qpower 10 (3 * e - 1)).
  { rewrite pow1000. replace (3 * (e + 1))%Z with (4 + (3 * e - 1))%Z by lia.
    now rewrite Qpower_plus by discriminate. }
  assert (Vpos : 0 < v)
    by (apply Qlt_le_trans with (Qpower 1000 e);
        [apply Qpower_0_lt; reflexivity|exact Lo]).
  exists v. split; [exact Vpos|]. split; [exact R|].
  destruct (Qlt_le_dec (Qabs q) ((19999 # 2) * Qpower 10 (3 * e - 1)))
    as [Lt|Ge].
  - left. split; [exact Lt|].
    apply ilog_unique; [lia|exact Vpos|exact Lo|].
    change (inject_Z 1000) with 1000%Q. rewrite P1.
    assert (X : (ilog 10 (Qabs q) - 3 <= 3 * e - 1)%Z).
    { assert (ilog 10 (Qabs q) < 3 * (e + 1))%Z; [|lia].
      apply (Qpower_lt_compat_l_inv 10); [|reflexivity].
      rewrite <- pow1000. now apply Qle_lt_trans with (Qabs q). }
    assert (U : Qpower 10 (ilog 10 (Qabs q) - 3) <= Qpower 10 (3 * e - 1))
      by (apply Qpower_le_compat_l; [exact X|discriminate]).
    apply Qabs_Qle_condition in Er. destruct Er as [_ Er].
    revert Er U Lt. generalize (Qpower 10 (ilog 10 (Qabs q) - 3)).
    generalize (Qpower 10 (3 * e - 1)). generalize (Qabs q). clearbody v.
    intros a P u Er U Lt. lra.
  - right. split; [exact Ge|].
    assert (Hhi' : Qabs q < 10000 * Qpower 10 (3 * e - 1))
      by now rewrite <- P1.
    destruct (band_scaled (Qabs q) (19999 # 2) 10000 e) as (_ & X & S1 & S2);
      [discriminate|discriminate|exact Ge|exact Hhi'|].
    rewrite X in V.
    assert (M : round_half_even (Qabs q * Qpower 10 (3 - (3 * e + 2)))
                = 10000%Z).
    { pose proof (round_half_even_above_odd _ 9999 eq_refl S1).
      pose proof (round_half_even_bounds _ 9999 10000
                    ltac:(apply Qle_trans with (19999 # 2);
                          [discriminate|exact S1]) S2).
      lia. }
    rewrite M in V.
    assert (V' : v == Qpower 1000 (e + 1)).
    { rewrite V, pow1000. change (inject_Z 10000) with (Qpower 10 4).
      rewrite <- Qpower_plus by discriminate.
      apply Qpower_comp; [reflexivity|lia]. }
    split; [|exact V'].
    apply ilog_unique; [lia|exact Vpos|..];
      change (inject_Z 1000) with 1000%Q; rewrite V'.
    + apply Qle_refl.
    + apply Qpower_lt_compat_l; [lia|reflexivity].
Qed.

Lemma tier_in_table (a : Q) (lo hi : Z) :
  0 < a -> Qpower 10 (3 * lo) <= a -> a < Qpower 10 (3 * hi) ->
  (lo <= ilog 1000 a < hi)%Z.
Proof.
  intros Ha L H.
  apply ilog_between; [lia|exact Ha|..];
    change (inject_Z 1000) with 1000%Q; now rewrite pow1000.
Qed.

(** The exponent that [formatSI(x, 3, s)] uses, for [1e-12 <= |x| < 1e15]:
    it is the exponent [e] of [x] itself in base 1000 as long as [|x|] is
    below [999.95 * 1000^e], and [e + 1] from there on, where the rounding
    step gives the next power of 1000. *)
Theorem formatSI_tier (q : Q) :
  Qpower 10 (-12) <= Qabs q -> Qabs q < Qpower 10 15 ->
  exists r : Q,
    float_of_string (format_e (Fin q) 3) = Ok (Fin r)
    /\ (-4 <= ilog 1000 (Qabs q) <= 4)%Z
    /\ (Qabs q < (19999 # 2) * Qpower 10 (3 * ilog 1000 (Qabs q) - 1) ->
        py_int (baseThousand (Fin r)) = Ok (ilog 1000 (Qabs q)))
    /\ ((19999 # 2) * Qpower 10 (3 * ilog 1000 (Qabs q) - 1) <= Qabs q ->
        py_int (baseThousand (Fin r)) = Ok (ilog 1000 (Qabs q) + 1)%Z).
Proof.
  intros Hlo Hhi.
  assert (Ha : 0 < Qabs q)
    by (apply Qlt_le_trans with (Qpower 10 (-12)); [apply pow10_pos|exact Hlo]).
  assert (H308 : Qabs q < Qpower 10 308).
  { apply Qlt_trans with (Qpower 10 15); [exact Hhi|].
    apply Qpower_lt_compat_l; [lia|reflexivity]. }
  pose proof (tier_in_table (Qabs q) (-4) 5 Ha Hlo Hhi) as He.
  destruct (default_rounding q Ha H308) as (v & Vpos & R & T).
  exists (if Qltb q 0 then - v else v). split; [exact R|].
  split; [lia|].
  destruct (prefixKey_finite _ (signed_value_nonzero q v Vpos)) as [-> _].
  rewrite (signed_value_abs q v Vpos).
  destruct T as [[Lt ->]|[Ge [-> _]]]; split; intros H; try reflexivity.
  - exfalso. exact (Qle_not_lt _ _ H Lt).
  - exfalso. exact (Qle_not_lt _ _ Ge H).
Qed.

Lemma formatSI_tier_999_96 :
  Qpower 10 (-12) <= Qabs (99996 # 100) /\ Qabs (99996 # 100) < Qpower 10 15
  /\ exists r : Q,
       float_of_string (format_e (Fin (99996 # 100)) 3) = Ok (Fin r)
       /\ py_int (baseThousand (Fin r)) = Ok 1%Z.
Proof.
  assert (H1 : Qpower 10 (-12) <= Qabs (99996 # 100))
    by (apply Qle_bool_imp_le; vm_compute; reflexivity).
  assert (H2 : Qabs (99996 # 100) < Qpower 10 15)
    by (vm_compute; reflexivity).
  split; [exact H1|]. split; [exact H2|].
  destruct (formatSI_tier (99996 # 100) H1 H2) as (r & R & _ & _ & P).
  exists r. split; [exact R|].
  apply P. apply Qle_bool_imp_le. vm_compute. reflexivity.
Defined.

(** The prefix that [formatSI(x, 3, s)] gives, for [1e-12 <= |x| < 1e12]:
    as long as [|x|] is below [999.95 * 1000^e], where [e] is the exponent
    of [x] itself in base 1000, the result is the scaled rounded number
    in the general format, a space and the prefix of [e]; from there on it
    is the number 1, or -1, and the prefix of [e + 1]. *)
Theorem formatSI_prefix_of_tier (q : Q) (s : format_spec) :
  Qpower 10 (-12) <= Qabs q -> Qabs q < Qpower 10 12 ->
  (Qabs q < (19999 # 2) * Qpower 10 (3 * ilog 1000 (Qabs q) - 1) ->
   exists r mantissa : Q,
     float_of_string (format_e (Fin q) 3) = Ok (Fin r)
     /\ shortenedDigits (Fin r) = Fin mantissa
     /\ formatSI (Fin q) 3 s
        = Ok (format_g (Fin mantissa) s 3
                ++ " " ++ si_symbol (ilog 1000 (Qabs q))))
  /\ ((19999 # 2) * Qpower 10 (3 * ilog 1000 (Qabs q) - 1) <= Qabs q ->
      formatSI (Fin q) 3 s
      = Ok (format_g (Fin (if Qltb q 0 then - (1) else 1)) s 3
              ++ " " ++ si_symbol (ilog 1000 (Qabs q) + 1))).
Proof.
  intros Hlo Hhi.
  assert (Ha : 0 < Qabs q)
    by (apply Qlt_le_trans with (Qpower 10 (-12)); [apply pow10_pos|exact Hlo]).
  assert (H308 : Qabs q < Qpower 10 308).
  { apply Qlt_trans with (Qpower 10 12); [exact Hhi|].
    apply Qpower_lt_compat_l; [lia|reflexivity]. }
  pose proof (tier_in_table (Qabs q) (-4) 4 Ha Hlo Hhi) as He.
  destruct (default_rounding q Ha H308) as (v & Vpos & R & T).
  pose proof (signed_value_nonzero q v Vpos) as Nz.
  pose proof (signed_value_abs q v Vpos) as Ab.
  pose proof (formatSI_render (Fin q) 3 s (float_eq0_false q Ha)) as F.
  rewrite R in F. cbn [Py.bind] in F.
  split.
  - intros Lt. destruct T as [[_ T]|[Ge _]];
      [|exfalso; exact (Qle_not_lt _ _ Ge Lt)].
    destruct (formatSI_in_table (Fin q) 3 s _ (float_eq0_false q Ha) R Nz)
      as (m & Hm & _ & _ & _ & Hf); [rewrite Ab, T; lia|].
    exists (if Qltb q 0 then - v else v), m.
    split; [exact R|]. split; [exact Hm|].
    rewrite Hf, Ab, T. reflexivity.
  - intros Ge. destruct T as [[Lt _]|[_ [T Ev]]];
      [exfalso; exact (Qle_not_lt _ _ Ge Lt)|].
    rewrite F.
    rewrite render_inside by (try exact Nz; rewrite Ab, T; lia).
    rewrite Ab, T.
    now rewrite (format_g_Qeq _ _ s 3
                   (signed_unit q v _ (Qpower_0_lt 1000 _ eq_refl) Ev)).
Qed.

Lemma formatSI_prefix_of_tier_1234 :
  Qpower 10 (-12) <= Qabs (1234 # 1) /\ Qabs (1234 # 1) < Qpower 10 12
  /\ exists r mantissa : Q,
       float_of_string (format_e (Fin (1234 # 1)) 3) = Ok (Fin r)
       /\ shortenedDigits (Fin r) = Fin mantissa
       /\ formatSI (Fin (1234 # 1)) 3 spec_empty
          = Ok (format_g (Fin mantissa) spec_empty 3
                  ++ " " ++ si_symbol (ilog 1000 (Qabs (1234 # 1)))).
Proof.
  assert (L : Qpower 10 (-12) <= Qabs (1234 # 1))
    by (apply Qle_bool_imp_le; vm_compute; reflexivity).
  assert (H : Qabs (1234 # 1) < Qpower 10 12) by (vm_compute; reflexivity).
  split; [exact L|]. split; [exact H|].
  apply (proj1 (formatSI_prefix_of_tier (1234 # 1) spec_empty L H)).
  vm_compute. reflexivity.
Defined.


(* ================================================================== *)
(** * Facts about [createAxes] and [setLabels] *)

Section GridFacts.

Import Grid.
Local Open Scope list_scope.
Local Open Scope nat_scope.

(** [np.ceil(a/b)] for a positive [b]. *)
Lemma ceil_div_bounds (a b : Z) :
  (0 < b)%Z ->
  ((Qceiling (inject_Z a / inject_Z b) - 1) * b < a
   <= Qceiling (inject_Z a / inject_Z b) * b)%Z.
Proof.
  intros Hb. destruct b as [|p|p]; try lia.
  unfold Qceiling, Qfloor, Qdiv, Qmult, Qinv, Qopp, inject_Z. cbn.
  rewrite Z.mul_1_r.
  pose proof (Z.div_mod (- a) (Z.pos p) ltac:(lia)) as E.
  pose proof (Z.mod_pos_bound (- a) (Z.pos p) ltac:(lia)) as B.
  nia.
Qed.

Lemma map_seq_from {A : Type} (f : nat -> A) (len start : nat) :
  List.map f (seq start len) = List.map (fun c => f (start + c)) (seq 0 len).
Proof.
  revert start. induction len as [|len IH]; intros start; [reflexivity|].
  rewrite !seq_S, !map_app, IH. reflexivity.
Qed.

(** The cells of a grid, row after row. *)
Lemma concat_rows {A : Type} (g : nat -> nat -> A) (nc : nat) :
  0 < nc ->
  forall k : nat,
    concat (List.map (fun r => List.map (fun c => g r c) (seq 0 nc)) (seq 0 k))
    = List.map (fun i => g (i / nc) (i mod nc)) (seq 0 (k * nc)).
Proof.
  intros Hnc. induction k as [|k IH]; [reflexivity|].
  rewrite seq_S, map_app, concat_app, IH. cbn [List.map concat Nat.add].
  rewrite app_nil_r.
  replace (S k * nc) with (k * nc + nc) by lia.
  rewrite seq_app, map_app. f_equal. cbn [Nat.add].
  rewrite (map_seq_from _ nc (k * nc)).
  apply map_ext_in. intros c Hc. apply in_seq in Hc.
  f_equal.
  - rewrite Nat.add_comm, Nat.div_add by lia.
    rewrite Nat.div_small by lia. reflexivity.
  - rewrite Nat.add_comm, Nat.Div0.mod_add.
    symmetry. apply Nat.mod_small. lia.
Qed.

Lemma concat_grid_cells (nr nc : nat) :
  0 < nc ->
  concat (grid_cells nr nc)
  = List.map (grid_cell nr nc (nr * nc) None None) (seq 0 (nr * nc)).
Proof.
  intros Hnc. unfold grid_cells.
  rewrite (concat_rows (new_subplot nr nc) nc Hnc nr).
  apply map_ext_in. intros i Hi. apply in_seq in Hi.
  unfold grid_cell, new_subplot.
  replace (i <? nr * nc) with true by (symmetry; apply Nat.ltb_lt; lia).
  destruct (S (i / nc) =? nr); destruct (i mod nc =? 0); reflexivity.
Qed.

Lemma update_nth_app (f : Subplot -> Subplot) (l1 : list Subplot)
  (a : Subplot) (l3 : list Subplot) :
  update_nth (List.length l1) f (l1 ++ a :: l3) = l1 ++ f a :: l3.
Proof.
  induction l1 as [|b l1 IH]; [reflexivity|].
  cbn [List.length app update_nth]. now rewrite IH.
Qed.

(** The loop turns off the last [todo] cells before the [done] cells
    already dealt with. *)
Lemma blank_loop_spec (todo : nat) :
  forall l1 l2 l3 : list Subplot,
    List.length l2 = todo ->
    blank_loop todo (List.length l3) (Array1 (l1 ++ l2 ++ l3))
    = Done (Array1 (l1 ++ List.map axis_off l2 ++ l3)).
Proof.
  induction todo as [|todo IH]; intros l1 l2 l3 Hlen.
  - destruct l2; [reflexivity|discriminate].
  - assert (Hne : l2 <> []) by (intros ->; discriminate).
    destruct (exists_last Hne) as (l2' & a & ->).
    rewrite length_app in Hlen. cbn [List.length] in Hlen.
    cbn [blank_loop off_from_end].
    replace (S (List.length l3) <=? List.length (l1 ++ (l2' ++ [a]) ++ l3))
      with true
      by (symmetry; apply Nat.leb_le; rewrite !length_app; cbn; lia).
    replace (List.length (l1 ++ (l2' ++ [a]) ++ l3) - S (List.length l3))
      with (List.length (l1 ++ l2'))
      by (rewrite !length_app; cbn [List.length]; lia).
    replace (l1 ++ (l2' ++ [a]) ++ l3) with ((l1 ++ l2') ++ a :: l3)
      by (rewrite <- !app_assoc; reflexivity).
    rewrite update_nth_app.
    replace ((l1 ++ l2') ++ axis_off a :: l3)
      with (l1 ++ l2' ++ (axis_off a :: l3))
      by (rewrite <- !app_assoc; reflexivity).
    change (S (List.length l3)) with (List.length (axis_off a :: l3)).
    rewrite (IH l1 l2' (axis_off a :: l3)) by lia.
    rewrite map_app. cbn [List.map]. rewrite <- !app_assoc. reflexivity.
Qed.

(** Turning off the cells from place [N] on. *)
Lemma blank_grid (R C N : nat) :
  N <= R * C ->
  blank_loop (R * C - N) 0
    (Array1 (List.map (grid_cell R C (R * C) None None) (seq 0 (R * C))))
  = Done (Array1 (List.map (grid_cell R C N None None) (seq 0 (R * C)))).
Proof.
  intros HN.
  replace (seq 0 (R * C)) with (seq 0 N ++ seq N (R * C - N))
    by (rewrite <- seq_app; f_equal; lia).
  rewrite !map_app.
  pose proof (blank_loop_spec (R * C - N)
    (List.map (grid_cell R C (R * C) None None) (seq 0 N))
    (List.map (grid_cell R C (R * C) None None) (seq N (R * C - N)))
    []) as H.
  cbn [List.length] in H. rewrite !app_nil_r in H.
  rewrite H by (rewrite length_map, length_seq; reflexivity).
  f_equal. f_equal. f_equal.
  - apply map_ext_in. intros i Hi. apply in_seq in Hi.
    unfold grid_cell.
    replace (i <? R * C) with true by (symmetry; apply Nat.ltb_lt; lia).
    replace (i <? N) with true by (symmetry; apply Nat.ltb_lt; lia).
    reflexivity.
  - rewrite map_map. apply map_ext_in. intros i Hi. apply in_seq in Hi.
    unfold grid_cell, axis_off.
    cbn [row col nrows ncols axis_on xlabel ylabel].
    replace (i <? N) with false by (symmetry; apply Nat.ltb_ge; lia).
    reflexivity.
Qed.

(** What [plt.subplots] gives, by the shape of the grid. *)
Lemma size_accepted (size : Q * Q) :
  (0 <= fst size)%Q -> (0 <= snd size)%Q ->
  (Qltb (fst size) 0 || Qltb (snd size) 0)%bool = false.
Proof.
  intros H1 H2. now rewrite !Qltb_false.
Qed.

Lemma subplots_single (size : Q * Q) :
  (0 <= fst size)%Q -> (0 <= snd size)%Q ->
  subplots 1 1 size
  = Done ({| figsize := size |}, Scalar (grid_cell 1 1 1 None None 0)).
Proof.
  intros H1 H2. unfold subplots. rewrite size_accepted by assumption.
  reflexivity.
Qed.

Lemma grid_cells_not_single (R C : nat) :
  0 < R -> 0 < C -> 1 < R \/ 1 < C ->
  forall (T : Type) (x : Subplot -> T) (y : T),
    match grid_cells R C with
    | [[a]] => x a
    | _ => y
    end = y.
Proof.
  intros HR HC H T x y. unfold grid_cells.
  destruct R as [|[|R]]; [lia| |].
  - destruct C as [|[|C]]; [lia|lia|]. reflexivity.
  - destruct C as [|[|C]]; [lia| |].
    + cbn [seq List.map]. reflexivity.
    + cbn [seq List.map]. reflexivity.
Qed.

(** After [subplots] and the flattening, any grid of more than one cell
    is a flat array of its cells. *)
Lemma subplots_flat (R C : nat) (size : Q * Q) :
  (0 <= fst size)%Q -> (0 <= snd size)%Q ->
  0 < R -> 0 < C -> 1 < R \/ 1 < C ->
  exists axs : ndarray,
    subplots (Z.of_nat C) (Z.of_nat R) size
    = Done ({| figsize := size |}, axs)
    /\ (if (1 <? Z.of_nat R)%Z then flatten axs else Done axs)
       = Done (Array1 (List.map (grid_cell R C (R * C) None None)
                         (seq 0 (R * C)))).
Proof.
  intros H1 H2 HR HC H. unfold subplots.
  rewrite size_accepted by assumption.
  replace ((Z.of_nat R <=? 0)%Z || (Z.of_nat C <=? 0)%Z)%bool with false
    by (symmetry; apply orb_false_iff; split; apply Z.leb_gt; lia).
  rewrite !Nat2Z.id.
  rewrite (grid_cells_not_single R C HR HC H).
  rewrite <- (concat_grid_cells R C HC).
  destruct (Z.eqb_spec (Z.of_nat R) 1) as [ER|NR].
  - cbn [orb]. eexists. split; [reflexivity|].
    replace (1 <? Z.of_nat R)%Z with false by (symmetry; apply Z.ltb_ge; lia).
    reflexivity.
  - replace (1 <? Z.of_nat R)%Z with true by (symmetry; apply Z.ltb_lt; lia).
    cbn [orb].
    destruct (Z.of_nat C =? 1)%Z; eexists; (split; [reflexivity|]);
      reflexivity.
Qed.

Lemma scaled_size_nonneg (n : Z) (a : Q) :
  (1 <= n)%Z -> (0 <= a)%Q -> (0 <= inject_Z n * a)%Q.
Proof.
  intros Hn Ha. apply Qmult_le_0_compat; [|exact Ha].
  change 0%Q with (inject_Z 0). rewrite <- Zle_Qle. lia.
Qed.

Lemma scaled_size_neg (n : Z) (a : Q) :
  (1 <= n)%Z -> (a < 0)%Q -> (inject_Z n * a < 0)%Q.
Proof.
  intros Hn Ha.
  assert (H : (0 < inject_Z n)%Q)
    by (change 0%Q with (inject_Z 0); rewrite <- Zlt_Qlt; lia).
  setoid_replace 0%Q with (inject_Z n * 0)%Q by ring.
  rewrite (Qmult_comm (inject_Z n) a), (Qmult_comm (inject_Z n) 0).
  apply Qmult_lt_compat_r; assumption.
Qed.

(** The value of [createAxes] for at least one axes and one column, and
    a figure size that is not negative. *)
Lemma createAxes_value (nAxes colWrap : Z) (axesHeight aspect : Q) :
  (1 <= nAxes)%Z -> (1 <= colWrap)%Z ->
  (0 <= axesHeight)%Q -> (0 <= axesHeight * aspect)%Q ->
  exists R C : nat,
    Z.of_nat C = Z.min nAxes colWrap
    /\ 0 < C
    /\ Z.to_nat nAxes <= R * C < Z.to_nat nAxes + C
    /\ createAxes nAxes colWrap axesHeight aspect
       = Done ({| figsize := ((inject_Z (Z.of_nat C) * (axesHeight * aspect))%Q,
                              (inject_Z (Z.of_nat R) * axesHeight)%Q) |},
               if (nAxes =? 1)%Z
               then Scalar (grid_cell 1 1 1 None None 0)
               else Array1 (List.map
                              (grid_cell R C (Z.to_nat nAxes) None None)
                              (seq 0 (R * C)))).
Proof.
  intros HA HW Hh Hw. unfold createAxes.
  set (nCols := Z.min nAxes colWrap).
  assert (HC : (1 <= nCols)%Z) by (unfold nCols; lia).
  assert (HCA : (nCols <= nAxes)%Z) by (unfold nCols; lia).
  replace (nCols =? 0)%Z with false by (symmetry; apply Z.eqb_neq; lia).
  pose proof (ceil_div_bounds nAxes nCols ltac:(lia)) as B.
  set (nRows := Qceiling (inject_Z nAxes / inject_Z nCols)) in *.
  assert (HR : (1 <= nRows)%Z) by nia.
  pose proof (scaled_size_nonneg nCols _ HC Hw) as Sw.
  pose proof (scaled_size_nonneg nRows _ HR Hh) as Sh.
  exists (Z.to_nat nRows), (Z.to_nat nCols).
  rewrite !Z2Nat.id by lia.
  split; [reflexivity|]. split; [lia|]. split; [nia|].
  destruct (Z.eqb_spec nAxes 1) as [E1|N1].
  - assert (EC : nCols = 1%Z) by lia.
    assert (ER : nRows = 1%Z) by nia.
    rewrite EC in Sw. rewrite ER in Sh. rewrite EC, ER, E1.
    rewrite subplots_single by assumption. reflexivity.
  - assert (Hshape : 1 < Z.to_nat nRows \/ 1 < Z.to_nat nCols) by nia.
    destruct (subplots_flat (Z.to_nat nRows) (Z.to_nat nCols)
                ((inject_Z nCols * (axesHeight * aspect))%Q,
                 (inject_Z nRows * axesHeight)%Q)
                Sw Sh ltac:(lia) ltac:(lia) Hshape) as (axs & Hsub & Hflat).
    rewrite !Z2Nat.id in Hsub by lia.
    rewrite !Z2Nat.id in Hflat by lia.
    rewrite Hsub, Hflat.
    replace (Z.to_nat (nCols * nRows - nAxes))
      with (Z.to_nat nRows * Z.to_nat nCols - Z.to_nat nAxes) by nia.
    rewrite blank_grid by nia.
    reflexivity.
Qed.

(** A negative width or height of the figure is refused. *)
Lemma createAxes_negative_size (nAxes colWrap : Z) (axesHeight aspect : Q) :
  (1 <= nAxes)%Z -> (1 <= colWrap)%Z ->
  (axesHeight < 0)%Q \/ (axesHeight * aspect < 0)%Q ->
  createAxes nAxes colWrap axesHeight aspect = Fails ValueError.
Proof.
  intros HA HW Hneg. unfold createAxes.
  set (nCols := Z.min nAxes colWrap).
  assert (HC : (1 <= nCols)%Z) by (unfold nCols; lia).
  replace (nCols =? 0)%Z with false by (symmetry; apply Z.eqb_neq; lia).
  pose proof (ceil_div_bounds nAxes nCols ltac:(lia)) as B.
  set (nRows := Qceiling (inject_Z nAxes / inject_Z nCols)) in *.
  assert (HR : (1 <= nRows)%Z) by nia.
  unfold subplots. cbn [fst snd].
  destruct Hneg as [Hh|Hw].
  - rewrite (Qltb_true _ 0 (scaled_size_neg nRows _ HR Hh)).
    rewrite orb_true_r. reflexivity.
  - rewrite (Qltb_true _ 0 (scaled_size_neg nCols _ HC Hw)). reflexivity.
Qed.

Lemma nth_grid_cell (R C N : nat) (yl xl : option string) (n i : nat) :
  i < n ->
  nth_error (List.map (grid_cell R C N yl xl) (seq 0 n)) i
  = Some (grid_cell R C N yl xl i).
Proof.
  intros Hi. rewrite nth_error_map, nth_error_seq.
  replace (i <? n) with true by (symmetry; apply Nat.ltb_lt; exact Hi).
  reflexivity.
Qed.

(** [setLabels] on the flat array of a grid. *)
Lemma setLabels_value (R C N n : nat) (yl xl : option string) :
  setLabels (Array1 (List.map (grid_cell R C N None None) (seq 0 n))) yl xl
  = Done (Array1 (List.map (grid_cell R C N yl xl) (seq 0 n))).
Proof.
  cbn [setLabels]. rewrite map_map. f_equal. f_equal.
  apply map_ext. intros i.
  unfold label_one, grid_cell, is_last_row, is_first_col.
  cbn [row col nrows ncols axis_on xlabel ylabel].
  destruct yl, xl, (S (i / C) =? R), (i mod C =? 0); reflexivity.
Qed.

Lemma positive_size (axesHeight aspect : Q) :
  (0 < axesHeight)%Q -> (0 < aspect)%Q ->
  (0 <= axesHeight)%Q /\ (0 <= axesHeight * aspect)%Q.
Proof.
  intros Hh Ha. split; [now apply Qlt_le_weak|].
  apply Qmult_le_0_compat; now apply Qlt_le_weak.
Qed.

(** How [createAxes] ends, for all integers [nAxes] and [colWrap] and all
    finite [axesHeight] and [aspect].  It returns only if [nAxes] and
    [colWrap] are at least 1 and neither the height [axesHeight] nor the
    width [axesHeight * aspect] of an axes is negative.  If the smaller of
    [nAxes] and [colWrap] is 0, the division [nAxes/nCols] raises
    [ZeroDivisionError].  Any other failure is a [ValueError] from
    [plt.subplots]: the number of columns is negative then, or the height
    or the width of an axes is not positive. *)
Theorem createAxes_outcome (nAxes colWrap : Z) (axesHeight aspect : Q) :
  match createAxes nAxes colWrap axesHeight aspect with
  | Done _ =>
      (1 <= nAxes)%Z /\ (1 <= colWrap)%Z
      /\ (0 <= axesHeight)%Q /\ (0 <= axesHeight * aspect)%Q
  | Fails e =>
      (Z.min nAxes colWrap = 0%Z /\ e = ZeroDivisionError)
      \/ (e = ValueError
          /\ ((Z.min nAxes colWrap < 0)%Z
              \/ ((1 <= nAxes)%Z /\ (1 <= colWrap)%Z
                  /\ ((axesHeight <= 0)%Q \/ (axesHeight * aspect <= 0)%Q))))
  end.
Proof.
  destruct (Z.lt_trichotomy (Z.min nAxes colWrap) 0) as [Hneg|[Hz|Hpos]].
  - unfold createAxes, subplots.
    replace (Z.min nAxes colWrap =? 0)%Z with false
      by (symmetry; apply Z.eqb_neq; lia).
    replace (Z.min nAxes colWrap <=? 0)%Z with true
      by (symmetry; apply Z.leb_le; lia).
    rewrite orb_true_r.
    destruct (Qltb _ 0 || Qltb _ 0)%bool;
      (right; split; [reflexivity|left; exact Hneg]).
  - unfold createAxes. rewrite Hz. cbn [Z.eqb].
    left. split; reflexivity.
  - assert (HA : (1 <= nAxes)%Z) by lia.
    assert (HW : (1 <= colWrap)%Z) by lia.
    destruct (Qlt_le_dec axesHeight 0) as [Hh|Hh].
    { rewrite (createAxes_negative_size _ _ _ _ HA HW (or_introl Hh)).
      right. split; [reflexivity|]. right.
      split; [exact HA|]. split; [exact HW|].
      left. now apply Qlt_le_weak. }
    destruct (Qlt_le_dec (axesHeight * aspect) 0) as [Hw|Hw].
    { rewrite (createAxes_negative_size _ _ _ _ HA HW (or_intror Hw)).
      right. split; [reflexivity|]. right.
      split; [exact HA|]. split; [exact HW|].
      right. now apply Qlt_le_weak. }
    destruct (createAxes_value nAxes colWrap axesHeight aspect HA HW Hh Hw)
      as (R & C & _ & _ & _ & ->).
    split; [exact HA|]. split; [exact HW|]. split; assumption.
Qed.

(** [createAxes] for at least two axes, at least one column and a
    positive height and aspect: the call returns a figure and a flat
    array of [nRows * nCols] cells, where [nCols = min(nAxes, colWrap)]
    and [nRows * nCols] is the least multiple of [nCols] that is at least
    [nAxes].  The cell at place [i] is the one of row [i / nCols] and
    column [i mod nCols]; its axis is on exactly when [i < nAxes], so the
    cells turned off are the last ones, fewer than [nCols] of them; no
    cell has a label.  The figure is [nCols * (axesHeight * aspect)] wide
    and [nRows * axesHeight] high. *)
Theorem createAxes_layout (nAxes colWrap : Z) (axesHeight aspect : Q) :
  (2 <= nAxes)%Z -> (1 <= colWrap)%Z ->
  (0 < axesHeight)%Q -> (0 < aspect)%Q ->
  exists (fig : Figure) (axs : list Subplot) (nRows nCols : nat),
    createAxes nAxes colWrap axesHeight aspect = Done (fig, Array1 axs)
    /\ Z.of_nat nCols = Z.min nAxes colWrap
    /\ List.length axs = nRows * nCols
    /\ Z.to_nat nAxes <= nRows * nCols < Z.to_nat nAxes + nCols
    /\ figsize fig
       = ((inject_Z (Z.of_nat nCols) * (axesHeight * aspect))%Q,
          (inject_Z (Z.of_nat nRows) * axesHeight)%Q)
    /\ forall i : nat,
         i < nRows * nCols ->
         exists c : Subplot,
           nth_error axs i = Some c
           /\ row c = i / nCols /\ col c = i mod nCols
           /\ nrows c = nRows /\ ncols c = nCols
           /\ axis_on c = (i <? Z.to_nat nAxes)
           /\ xlabel c = None /\ ylabel c = None.
Proof.
  intros HA HW Hh Ha.
  destruct (positive_size _ _ Hh Ha) as [Ph Pw].
  destruct (createAxes_value nAxes colWrap axesHeight aspect)
    as (R & C & HC & HC0 & HN & E); [lia|lia|exact Ph|exact Pw|].
  replace (nAxes =? 1)%Z with false in E by (symmetry; apply Z.eqb_neq; lia).
  eexists. eexists. exists R, C.
  split; [exact E|]. split; [exact HC|].
  split; [now rewrite length_map, length_seq|].
  split; [exact HN|]. split; [reflexivity|].
  intros i Hi. exists (grid_cell R C (Z.to_nat nAxes) None None i).
  split; [now apply nth_grid_cell|].
  unfold grid_cell. cbn [row col nrows ncols axis_on xlabel ylabel].
  repeat split.
  - now destruct (S (i / C) =? R).
  - now destruct (i mod C =? 0).
Qed.

(** For a single axes (and a positive height and aspect) [createAxes]
    returns the [Axes] itself, not an array, with a figure of one cell;
    [setLabels] cannot loop over it and ends with a [TypeError] whatever
    the labels. *)
Theorem createAxes_single_axes (colWrap : Z) (axesHeight aspect : Q) :
  (1 <= colWrap)%Z -> (0 < axesHeight)%Q -> (0 < aspect)%Q ->
  exists (fig : Figure) (ax : Subplot),
    createAxes 1 colWrap axesHeight aspect = Done (fig, Scalar ax)
    /\ figsize fig = ((1 * (axesHeight * aspect))%Q, (1 * axesHeight)%Q)
    /\ row ax = 0 /\ col ax = 0 /\ axis_on ax = true
    /\ forall ylabels xlabels : option string,
         setLabels (Scalar ax) ylabels xlabels = Fails TypeError.
Proof.
  intros HW Hh Ha.
  destruct (positive_size _ _ Hh Ha) as [Ph Pw].
  destruct (createAxes_value 1 colWrap axesHeight aspect)
    as (R & C & HC & HC0 & HN & E); [lia|lia|exact Ph|exact Pw|].
  cbn [Z.eqb Pos.eqb] in E.
  assert (EC : C = 1) by lia. assert (ER : R = 1) by nia.
  subst C R. rewrite E.
  eexists. eexists. split; [reflexivity|].
  repeat split.
Qed.

(** [setLabels] on the array that [createAxes] returns for at least two
    axes: every cell keeps its place and the state of its axis; the y-label
    goes to the cells of the first column and to no other, the x-label
    to the cells of the last row of the grid and to no other, whether
    their axis is on or off. *)
Theorem setLabels_on_grid (nAxes colWrap : Z) (axesHeight aspect : Q)
  (ylabels xlabels : option string) :
  (2 <= nAxes)%Z -> (1 <= colWrap)%Z ->
  (0 < axesHeight)%Q -> (0 < aspect)%Q ->
  exists (fig : Figure) (axs labelled : list Subplot) (nRows nCols : nat),
    createAxes nAxes colWrap axesHeight aspect = Done (fig, Array1 axs)
    /\ setLabels (Array1 axs) ylabels xlabels = Done (Array1 labelled)
    /\ Z.of_nat nCols = Z.min nAxes colWrap
    /\ List.length axs = nRows * nCols
    /\ List.length labelled = nRows * nCols
    /\ forall i : nat,
         i < nRows * nCols ->
         exists c : Subplot,
           nth_error labelled i = Some c
           /\ row c = i / nCols /\ col c = i mod nCols
           /\ axis_on c = (i <? Z.to_nat nAxes)
           /\ ylabel c = (if i mod nCols =? 0 then ylabels else None)
           /\ xlabel c = (if S (i / nCols) =? nRows then xlabels else None).
Proof.
  intros HA HW Hh Ha.
  destruct (positive_size _ _ Hh Ha) as [Ph Pw].
  destruct (createAxes_value nAxes colWrap axesHeight aspect)
    as (R & C & HC & HC0 & HN & E); [lia|lia|exact Ph|exact Pw|].
  replace (nAxes =? 1)%Z with false in E by (symmetry; apply Z.eqb_neq; lia).
  eexists. eexists. eexists. exists R, C.
  split; [exact E|]. split; [apply setLabels_value|].
  split; [exact HC|].
  split; [now rewrite length_map, length_seq|].
  split; [now rewrite length_map, length_seq|].
  intros i Hi. exists (grid_cell R C (Z.to_nat nAxes) ylabels xlabels i).
  split; [now apply nth_grid_cell|].
  repeat split.
Qed.

(** When [nAxes] is more than [colWrap] and not a multiple of it, the
    last row of the grid is filled in part.  The last cell of the array
    is then turned off and still gets the x-label, and the cell above it,
    the lowest one of its column whose axis is on, gets none. *)
Theorem setLabels_partial_row (nAxes colWrap : Z) (axesHeight aspect : Q)
  (ylabels : option string) (xlabel_ : string) :
  (1 <= colWrap < nAxes)%Z -> (nAxes mod colWrap <> 0)%Z ->
  (0 < axesHeight)%Q -> (0 < aspect)%Q ->
  exists (fig : Figure) (axs labelled : list Subplot)
         (above below : Subplot),
    createAxes nAxes colWrap axesHeight aspect = Done (fig, Array1 axs)
    /\ setLabels (Array1 axs) ylabels (Some xlabel_)
       = Done (Array1 labelled)
    /\ nth_error labelled (List.length labelled - 1) = Some below
    /\ nth_error labelled (List.length labelled - 1 - Z.to_nat colWrap)
       = Some above
    /\ col above = col below /\ row below = S (row above)
    /\ axis_on below = false /\ xlabel below = Some xlabel_
    /\ axis_on above = true /\ xlabel above = None.
Proof.
  intros HW Hmod Hh Ha.
  destruct (positive_size _ _ Hh Ha) as [Ph Pw].
  destruct (createAxes_value nAxes colWrap axesHeight aspect)
    as (R & C & HC & HC0 & HN & E); [lia|lia|exact Ph|exact Pw|].
  replace (nAxes =? 1)%Z with false in E by (symmetry; apply Z.eqb_neq; lia).
  assert (EC : C = Z.to_nat colWrap) by lia.
  assert (HR : 2 <= R) by nia.
  assert (Hblank : Z.to_nat nAxes < R * C).
  { destruct (Nat.eq_dec (Z.to_nat nAxes) (R * C)) as [Eq|]; [|lia].
    exfalso. apply Hmod.
    replace nAxes with (Z.of_nat R * colWrap)%Z by nia.
    apply Z.mod_mul. lia. }
  destruct R as [|[|R]]; [lia|lia|].
  set (RR := S (S R)) in *.
  assert (Hlast : RR * C - 1 = S R * C + (C - 1)) by (unfold RR; nia).
  assert (Habove : RR * C - 1 - C = R * C + (C - 1)) by (unfold RR; nia).
  assert (Dlast : (RR * C - 1) / C = S R).
  { rewrite Hlast, Nat.add_comm, Nat.div_add by lia.
    rewrite Nat.div_small by lia. reflexivity. }
  assert (Mlast : (RR * C - 1) mod C = C - 1).
  { rewrite Hlast, Nat.add_comm, Nat.Div0.mod_add.
    apply Nat.mod_small. lia. }
  assert (Dabove : (RR * C - 1 - C) / C = R).
  { rewrite Habove, Nat.add_comm, Nat.div_add by lia.
    rewrite Nat.div_small by lia. reflexivity. }
  assert (Mabove : (RR * C - 1 - C) mod C = C - 1).
  { rewrite Habove, Nat.add_comm, Nat.Div0.mod_add.
    apply Nat.mod_small. lia. }
  eexists. eexists. eexists.
  exists (grid_cell RR C (Z.to_nat nAxes) ylabels (Some xlabel_)
            (RR * C - 1 - C)),
         (grid_cell RR C (Z.to_nat nAxes) ylabels (Some xlabel_)
            (RR * C - 1)).
  split; [exact E|]. split; [apply setLabels_value|].
  rewrite length_map, length_seq, <- EC.
  split; [apply nth_grid_cell; nia|].
  split; [apply nth_grid_cell; nia|].
  unfold grid_cell. cbn [row col nrows ncols axis_on xlabel ylabel].
  rewrite Dlast, Mlast, Dabove, Mabove.
  split; [reflexivity|]. split; [reflexivity|].
  split; [apply Nat.ltb_ge; lia|].
  split; [unfold RR; now rewrite Nat.eqb_refl|].
  split; [apply Nat.ltb_lt; nia|].
  unfold RR. replace (S R =? S (S R)) with false
    by (symmetry; apply Nat.eqb_neq; lia).
  reflexivity.
Qed.

End GridFacts.

Lemma createAxes_layout_5_3 :
  (2 <= 5)%Z /\ (1 <= 3)%Z /\ 0 < 4 /\ 0 < 1
  /\ exists (fig : Grid.Figure) (axs : list Grid.Subplot),
       Grid.createAxes 5 3 4 1 = Grid.Done (fig, Grid.Array1 axs)
       /\ List.length axs = 6%nat
       /\ Grid.figsize fig = (inject_Z 3 * (4 * 1), inject_Z 2 * 4).
Proof.
  assert (H1 : (2 <= 5)%Z) by lia.
  assert (H2 : (1 <= 3)%Z) by lia.
  assert (H3 : 0 < 4) by reflexivity.
  assert (H4 : 0 < 1) by reflexivity.
  split; [exact H1|]. split; [exact H2|].
  split; [exact H3|]. split; [exact H4|].
  destruct (createAxes_layout 5 3 4 1 H1 H2 H3 H4)
    as (fig & axs & R & C & E & HC & HL & HN & HF & _).
  assert (EC : C = 3%nat) by lia.
  assert (ER : R = 2%nat) by lia.
  exists fig, axs. split; [exact E|].
  rewrite HL, HF, EC, ER. split; reflexivity.
Defined.

Lemma createAxes_single_axes_default_wrap :
  (1 <= 4)%Z /\ 0 < 4 /\ 0 < 1
  /\ exists (fig : Grid.Figure) (ax : Grid.Subplot),
       Grid.createAxes 1 4 4 1 = Grid.Done (fig, Grid.Scalar ax)
       /\ Grid.setLabels (Grid.Scalar ax) (Some "y") (Some "x")
          = Grid.Fails Grid.TypeError.
Proof.
  assert (H1 : (1 <= 4)%Z) by lia.
  assert (H3 : 0 < 4) by reflexivity.
  assert (H4 : 0 < 1) by reflexivity.
  split; [exact H1|]. split; [exact H3|]. split; [exact H4|].
  destruct (createAxes_single_axes 4 4 1 H1 H3 H4)
    as (fig & ax & E & _ & _ & _ & _ & L).
  exists fig, ax. split; [exact E|apply L].
Defined.

Lemma setLabels_on_grid_5_3 :
  (2 <= 5)%Z /\ (1 <= 3)%Z /\ 0 < 4 /\ 0 < 1
  /\ exists (fig : Grid.Figure) (axs labelled : list Grid.Subplot),
       Grid.createAxes 5 3 4 1 = Grid.Done (fig, Grid.Array1 axs)
       /\ Grid.setLabels (Grid.Array1 axs) (Some "y") (Some "x")
          = Grid.Done (Grid.Array1 labelled)
       /\ List.length labelled = 6%nat.
Proof.
  assert (H1 : (2 <= 5)%Z) by lia.
  assert (H2 : (1 <= 3)%Z) by lia.
  assert (H3 : 0 < 4) by reflexivity.
  assert (H4 : 0 < 1) by reflexivity.
  split; [exact H1|]. split; [exact H2|].
  split; [exact H3|]. split; [exact H4|].
  destruct (setLabels_on_grid 5 3 4 1 (Some "y") (Some "x") H1 H2 H3 H4)
    as (fig & axs & labelled & R & C & E & L & HC & HL & HL' & _).
  assert (EC : C = 3%nat) by lia.
  assert (ER : R = 2%nat).
  { rewrite EC in HL.
    assert (Hlen : List.length axs = 6%nat).
    { vm_compute in E. injection E as _ <-. reflexivity. }
    lia. }
  exists fig, axs, labelled. split; [exact E|]. split; [exact L|].
  rewrite HL', EC, ER. reflexivity.
Defined.

Lemma setLabels_partial_row_5_3 :
  (1 <= 3 < 5)%Z /\ (5 mod 3 <> 0)%Z /\ 0 < 4 /\ 0 < 1
  /\ exists (fig : Grid.Figure) (axs labelled : list Grid.Subplot)
            (above below : Grid.Subplot),
       Grid.createAxes 5 3 4 1 = Grid.Done (fig, Grid.Array1 axs)
       /\ Grid.setLabels (Grid.Array1 axs) None (Some "x")
          = Grid.Done (Grid.Array1 labelled)
       /\ nth_error labelled (List.length labelled - 1) = Some below
       /\ nth_error labelled (List.length labelled - 1 - Z.to_nat 3)
          = Some above
       /\ Grid.col above = Grid.col below
       /\ Grid.row below = S (Grid.row above)
       /\ Grid.axis_on below = false /\ Grid.xlabel below = Some "x"
       /\ Grid.axis_on above = true /\ Grid.xlabel above = None.
Proof.
  assert (H1 : (1 <= 3 < 5)%Z) by lia.
  assert (H2 : (5 mod 3 <> 0)%Z) by (vm_compute; discriminate).
  assert (H3 : 0 < 4) by reflexivity.
  assert (H4 : 0 < 1) by reflexivity.
  split; [exact H1|]. split; [exact H2|].
  split; [exact H3|]. split; [exact H4|].
  exact (setLabels_partial_row 5 3 4 1 None "x" H1 H2 H3 H4).
Defined.

(* ================================================================== *)
(** * Further facts about [Curve] *)

(** ** [get_curve] *)




(** ** The drawing methods *)

Section CurveMore.

Variable autoscale : list artist -> (Q * Q) * (Q * Q) -> (Q * Q) * (Q * Q).
Variable builtins : list string.
Variable func : Q -> Q.

(** [plot_line] returns normally only when both a position and a label
    are given.  It has then drawn the chord between the two points of the
    curve and one annotation, at the point that the two expressions of the
    code give for [pos]. *)
Theorem plot_line_outcome (ax : Axes) (min_ max_ : Q)
  (pos : option Q) (label : option string) :
  ~ In "Return" builtins ->
  (fst (plot_line autoscale builtins func min_ max_ pos label ax) = Ok tt
   <-> pos <> None /\ label <> None)
  /\ forall (p : Q) (l : string),
       pos = Some p -> label = Some l ->
       artists (snd (plot_line autoscale builtins func min_ max_ pos label ax))
       = (artists ax
            ++ [Line2D (min_, max_) (func min_, func max_);
                Annotation (Some l)
                  ((max_ - min_) * p + min_,
                   (func max_ - func min_) * p + func min_)
                  (-30, 30)%Z])%list.
Proof.
  intros Hb. split.
  - unfold plot_line, then_. cbn [ax_plot add_autoscaled].
    destruct pos as [p|].
    + destruct label as [l|].
      * cbn. split; [intros _; split; discriminate|reflexivity].
      * cbn [ret along]. rewrite load_Return by exact Hb.
        split; [discriminate|]. intros [_ H]. now contradiction H.
    + rewrite load_Return by exact Hb.
      split; [discriminate|]. intros [H _]. now contradiction H.
  - intros p l -> ->.
    unfold plot_line, then_. cbn. rewrite <- app_assoc. reflexivity.
Qed.

(** How [draw_connecting_hline] ends.  It always draws one vertical
    segment at [x], from the lower y-limit the axes had to the curve.
    Without a label it returns there.  With a label and a position it adds
    one annotation at [x], at the fraction [pos] of the way up the
    segment, and returns.  With a label and [pos=None] the product with
    [None] raises a [TypeError] once the segment is drawn. *)
Theorem draw_connecting_hline_outcome (ax : Axes) (x : Q)
  (label : option string) (pos : option Q) :
  let min_y := fst (ylim ax) in
  let segment := VLines x min_y (func x) in
  let after := draw_connecting_hline autoscale func x label pos ax in
  match label, pos with
  | None, _ =>
      fst after = Ok tt
      /\ artists (snd after) = (artists ax ++ [segment])%list
  | Some l, Some p =>
      fst after = Ok tt
      /\ artists (snd after)
         = (artists ax
              ++ [segment;
                  Annotation (Some l) (x, (func x - min_y) * p + min_y)
                    (5, 0)%Z])%list
  | Some l, None =>
      fst after = Raise TypeError
      /\ artists (snd after) = (artists ax ++ [segment])%list
  end.
Proof.
  unfold draw_connecting_hline, then_. cbn [ax_get_ylim].
  destruct (ylim ax) as [min_y max_y].
  cbn [ax_vlines add_autoscaled ax_set_ylim fst].
  destruct label as [l|].
  - destruct pos as [p|].
    + cbn. rewrite <- app_assoc. split; reflexivity.
    + cbn. split; reflexivity.
  - cbn. split; reflexivity.
Qed.

(** [draw_connecting_vline] does nothing with its label and its position:
    whatever they are it draws one horizontal segment from the lower
    x-limit the axes had to [x], at the height of the curve, adds no
    annotation and returns. *)
Theorem draw_connecting_vline_ignores_label (ax : Axes) (x : Q)
  (label : option string) (pos : option Q) :
  draw_connecting_vline autoscale func x label pos ax
  = draw_connecting_vline autoscale func x None None ax
  /\ fst (draw_connecting_vline autoscale func x label pos ax) = Ok tt
  /\ artists (snd (draw_connecting_vline autoscale func x label pos ax))
     = (artists ax ++ [HLines (func x) (fst (xlim ax)) x])%list.
Proof.
  unfold draw_connecting_vline, then_. cbn [ax_get_xlim].
  destruct (xlim ax) as [min_x max_x].
  cbn [ax_hlines add_autoscaled ax_set_xlim fst].
  destruct label as [l|]; cbn; repeat split.
Qed.

End CurveMore.

Lemma plot_line_outcome_labelled :
  ~ In "Return" ["len"; "print"; "range"]
  /\ (fst (plot_line (fun _ lims => lims) ["len"; "print"; "range"]
             (fun x => x * x) (-1) 1 (Some (1 # 2)) (Some "chord")
             blank_axes) = Ok tt
      <-> Some (1 # 2) <> None /\ Some "chord" <> None).
Proof.
  assert (H : ~ In "Return" ["len"; "print"; "range"]).
  { cbn. intros [E|[E|[E|[]]]]; discriminate. }
  split; [exact H|].
  exact (proj1 (plot_line_outcome (fun _ lims => lims)
                  ["len"; "print"; "range"] (fun x => x * x) blank_axes
                  (-1) 1 (Some (1 # 2)) (Some "chord") H)).
Defined.

